(** * shared_stack: the product catalogue and the reconciliation loop

    A shallow embedding of [shared_stack.py]: the [Product] and
    [ProductTracker] classes, the parsing done by [RepositoryManager] and
    [StackManager], and the loop of [main] that installs missing tags and
    elects the "current" one.

    Conventions.
    - A Python [dict] is a [gmap], a Python [set] a [gset].  The order in
      which Python walks a set or a dict is not fixed by their contents
      (string hashes are salted per process), so every loop over one goes
      through the class [IterOrder]: any enumeration of the elements.
    - A Python exception is a value of [exn]; a method that can raise
      returns [exn + A].
    - External commands are answered by an [Env]: the exit status and the
      output of a command are a function of everything done so far.  The
      engine runs in the monad [M], whose state is the history of effects
      and the [StackManager] object. *)

From Stdlib Require Import ZArith Ascii.
From Stdlib Require String.
From stdpp Require Import base option list gmap sets strings.

Open Scope Z_scope.

#[local] Set Warnings "-clear-no-such-hyp".

(** ** Python string methods *)

Module Py.

(** [str.isspace] on the code points below 128. *)
Definition isspace (c : ascii) : bool :=
  match c with
  | "009" | "010" | "011" | "012" | "013"
  | "028" | "029" | "030" | "031" | " " => true
  | _ => false
  end%char.

Fixpoint lstrip (s : string) : string :=
  match s with
  | String c s' => if isspace c then lstrip s' else s
  | EmptyString => EmptyString
  end.

Fixpoint rstrip (s : string) : string :=
  match s with
  | String c s' =>
      match rstrip s' with
      | EmptyString => if isspace c then EmptyString else String c EmptyString
      | r => String c r
      end
  | EmptyString => EmptyString
  end.

(** [s.strip()] *)
Definition strip (s : string) : string := rstrip (lstrip s).

(** [s.split(sep)] for a separator of one character: never empty. *)
Fixpoint split (sep : ascii) (s : string) : list string :=
  match s with
  | EmptyString => [EmptyString]
  | String c s' =>
      if Ascii.eqb c sep then EmptyString :: split sep s'
      else match split sep s' with
           | w :: ws => String c w :: ws
           | [] => [String c EmptyString]
           end
  end.

(** The word being read and the words after it. *)
Fixpoint words (s : string) : string * list string :=
  match s with
  | EmptyString => (EmptyString, [])
  | String c s' =>
      let '(w, ws) := words s' in
      if isspace c
      then (EmptyString, match w with EmptyString => ws | _ => w :: ws end)
      else (String c w, ws)
  end.

(** [s.split()]: runs of white space separate, no empty word. *)
Definition split_ws (s : string) : list string :=
  let '(w, ws) := words s in
  match w with EmptyString => ws | _ => w :: ws end.

(** [sub in s] on strings. *)
Fixpoint contains (sub s : string) : bool :=
  String.prefix sub s ||
  match s with
  | String _ s' => contains sub s'
  | EmptyString => false
  end.

(** [s[-n:]] and [s[:-n]] for [n > 0]. *)
Definition last_chars (n : nat) (s : string) : string :=
  String.substring (String.length s - n) n s.

Definition drop_last (n : nat) (s : string) : string :=
  String.substring 0 (String.length s - n) s.

(** [bool(s)] *)
Definition truthy (s : string) : bool :=
  match s with EmptyString => false | _ => true end.

(** [s.split(sep, 1)]: split at the first separator only. *)
Fixpoint split_once (sep : ascii) (s : string) : list string :=
  match s with
  | EmptyString => [EmptyString]
  | String c s' =>
      if Ascii.eqb c sep then [EmptyString; s']
      else match split_once sep s' with
           | w :: ws => String c w :: ws
           | [] => [String c EmptyString]
           end
  end.

End Py.

(** ** Exceptions *)

Inductive exn : Type :=
| KeyError
| TypeError
| ValueError
| IndexError
| CalledProcessError (returncode : Z) (cmd : list string).

(** [try: body except KeyError: handler] on a pure result. *)
Definition except_KeyError {A} (body : exn + A) (handler : exn + A) : exn + A :=
  match body with
  | inl KeyError => handler
  | r => r
  end.

#[export] Instance exn_ret : MRet (sum exn) := λ A a, inr a.

#[export] Instance exn_bind : MBind (sum exn) := λ A B k r,
  match r with
  | inr a => k a
  | inl e => inl e
  end.

(** ** Iteration order of sets and dicts *)

Class IterOrder : Type := {
  set_iter : gset string → list string;
  set_iter_perm : ∀ s, set_iter s ≡ₚ elements s;
  dict_iter : ∀ {V : Type}, gmap string V → list (string * V);
  dict_iter_perm : ∀ V (m : gmap string V), dict_iter m ≡ₚ map_to_list m;
}.

(** The order of the underlying tries. *)
#[export] Program Instance trie_order : IterOrder := {|
  set_iter := elements;
  dict_iter := λ V m, map_to_list m;
|}.
Solve Obligations with done.

(** The same order walked backwards. *)
Program Definition reverse_order : IterOrder := {|
  set_iter := λ s, reverse (elements s);
  dict_iter := λ V m, reverse (map_to_list m);
|}.
Next Obligation. intros s. apply reverse_Permutation. Qed.
Next Obligation. intros V m. apply reverse_Permutation. Qed.

(** ** class Product *)

Module Product.

Record t : Type := mk {
  name : string;
  (* Map from version to tags corresponding to that version. *)
  _versions : gmap string (gset string);
}.

Definition __init__ (name : string) : t :=
  {| name := name; _versions := ∅ |}.

Definition add_version (self : t) (version : string) : t :=
  match _versions self !! version with
  | None => {| name := name self; _versions := <[version := ∅]> (_versions self) |}
  | Some _ => self
  end.

Definition add_tag (self : t) (version tag : string) : exn + t :=
  match _versions self !! version with
  | None => inl KeyError
  | Some s =>
      inr {| name := name self;
             _versions := <[version := {[tag]} ∪ s]> (_versions self) |}
  end.

Definition versions `{IterOrder} (self : t) (tag : option string) : list string :=
  match tag with
  | None => (dict_iter (_versions self)).*1
  | Some tag =>
      (List.filter (λ kv, bool_decide (tag ∈ kv.2)) (dict_iter (_versions self))).*1
  end.

(** [set.union] applied to the unpacked list of sets: the unbound method
    needs a first argument. *)
Definition set_union (sets : list (gset string)) : exn + gset string :=
  match sets with
  | [] => inl TypeError
  | s :: rest => inr (foldl (∪) s rest)
  end.

Definition tags `{IterOrder} (self : t) (version : option string) : exn + gset string :=
  match version with
  | None => set_union (dict_iter (_versions self)).*2
  | Some version =>
      match _versions self !! version with
      | None => inl KeyError
      | Some s => inr s
      end
  end.

End Product.

(** ** class ProductTracker *)

Module ProductTracker.

Record t : Type := mk { _products : gmap string Product.t }.

Definition __init__ : t := {| _products := ∅ |}.

Definition tags_for_product `{IterOrder} (self : t) (product_name : string)
  : exn + gset string :=
  except_KeyError
    (match _products self !! product_name with
     | None => inl KeyError
     | Some p => Product.tags p None
     end)
    (inr ∅).

Definition products_for_tag `{IterOrder} (self : t) (tag : string)
  : list (string * string) :=
  flat_map
    (λ product : Product.t,
       map (λ version, (Product.name product, version))
           (Product.versions product (Some tag)))
    (dict_iter (_products self)).*2.

(** [None] on the left is the implicit [return None]. *)
Definition current `{IterOrder} (self : t) (product_name : string)
  : exn + option string :=
  match _products self !! product_name with
  | Some p =>
      match Product.versions p (Some "current") with
      | v :: _ => inr (Some v)
      | [] => inl IndexError
      end
  | None => inr None
  end.

Definition has_version `{IterOrder} (self : t) (product_name version : string)
  : bool :=
  match _products self !! product_name with
  | Some p => bool_decide (version ∈ Product.versions p None)
  | None => false
  end.

Definition insert (self : t) (product version : string) (tag : option string)
  : exn + t :=
  let products :=
    match _products self !! product with
    | None => <[product := Product.__init__ product]> (_products self)
    | Some _ => _products self
    end in
  match products !! product with
  | None => inl KeyError
  | Some p =>
      let p := Product.add_version p version in
      let products := <[product := p]> products in
      match tag with
      | Some tag =>
          if Py.truthy tag then
            match Product.add_tag p version tag with
            | inl e => inl e
            | inr p => inr {| _products := <[product := p]> products |}
            end
          else inr {| _products := products |}
      | None => inr {| _products := products |}
      end
  end.

End ProductTracker.

(** ** Effects: the history of the run and the monad of the engine *)

Inductive event : Type :=
| Exec (argv : list string)          (* an external process was started *)
| Print (text : string)              (* a line on standard output *)
| AppendStartup (line : string).     (* a line appended to startup.py *)

#[export] Instance event_eq_dec : EqDecision event.
Proof. solve_decision. Defined.

(** The world outside: exit status and output of a process, given all that
    happened before it was started. *)
Class Env : Type := { run_process : list event → list string → Z * string }.

(** A computation over a state [σ] that may raise; the state reached when
    it raises is kept, as the handler of a [try] sees it. *)
Definition M (σ A : Type) : Type := σ → (exn + A) * σ.

#[export] Instance M_ret {σ} : MRet (M σ) := λ A a s, (inr a, s).

#[export] Instance M_bind {σ} : MBind (M σ) := λ A B k m s,
  match m s with
  | (inr a, s') => k a s'
  | (inl e, s') => (inl e, s')
  end.

Definition raise {σ A} (e : exn) : M σ A := λ s, (inl e, s).

Definition lift {σ A} (r : exn + A) : M σ A := λ s, (r, s).

Definition get {σ} : M σ σ := λ s, (inr s, s).

Definition modify {σ} (f : σ → σ) : M σ unit := λ s, (inr tt, f s).

(** [try: body except subprocess.CalledProcessError: handler] *)
Definition except_CalledProcessError {σ} (body handler : M σ unit) : M σ unit :=
  λ s, match body s with
       | (inl (CalledProcessError _ _), s') => handler s'
       | r => r
       end.

(** [for x in l: body x] *)
Fixpoint for_each {σ A} (l : list A) (body : A → M σ unit) : M σ unit :=
  match l with
  | [] => mret tt
  | x :: l' => body x ;; for_each l' body
  end.

(** [max(l, key=key)]: the first element whose key no other exceeds. *)
Fixpoint max_from {A} (key : A → exn + Z) (best : A) (best_key : Z) (l : list A)
  : exn + A :=
  match l with
  | [] => inr best
  | x :: l' =>
      match key x with
      | inl e => inl e
      | inr k =>
          if best_key <? k then max_from key x k l'
          else max_from key best best_key l'
      end
  end.

Definition py_max {A} (l : list A) (key : A → exn + Z) : exn + A :=
  match l with
  | [] => inl ValueError
  | x :: l' =>
      match key x with
      | inl e => inl e
      | inr k => max_from key x k l'
      end
  end.

(** ** class StackManager *)

Module StackManager.

(** The attributes the loop of [main] reads or writes; [debug] is
    [False] and [eups_environ] belongs to the [Env]. *)
Record t : Type := mk {
  stack_dir : string;
  _product_tracker : ProductTracker.t;
}.

Record state : Type := mkState {
  history : list event;
  self : t;
}.

Definition emit (e : event) : M state unit :=
  modify (λ s, {| history := history s ++ [e]; self := self s |}).

Definition set_tracker (tr : ProductTracker.t) : M state unit :=
  modify (λ s, {| history := history s;
                  self := {| stack_dir := stack_dir (self s);
                             _product_tracker := tr |} |}).

Definition tracker : M state ProductTracker.t :=
  s ← get; mret (_product_tracker (self s)).

Definition _check_output `{Env} (popenargs : list string) : M state string :=
  s ← get;
  let '(retcode, output) := run_process (history s) popenargs in
  emit (Exec popenargs);;
  if retcode =? 0 then mret output
  else
    emit (Print "Failed process output:");;
    emit (Print output);;
    raise (CalledProcessError retcode popenargs).

Definition _run_cmd `{Env} (cmd : string) (args : list string) : M state string :=
  _check_output (["eups"; "--nolocks"; cmd] ++ args).

Definition tracker_insert (product version : string) (tag : option string)
  : M state unit :=
  tr ← tracker;
  tr' ← lift (ProductTracker.insert tr product version tag);
  set_tracker tr'.

(** One line of [eups list --raw]. *)
Definition refresh_line (line : string) : M state unit :=
  if decide (line = "") then mret tt
  else
    match Py.split "|" line with
    | [product; version; tags] =>
        (if decide (tags = "") then tracker_insert product version None
         else mret tt);;
        for_each (Py.split ":" tags) (λ tag,
          if Py.contains tag "setup" then mret tt
          else tracker_insert product version (Some tag))
    | _ => raise ValueError
    end.

Definition _refresh_products `{Env} : M state unit :=
  set_tracker ProductTracker.__init__;;
  output ← _run_cmd "list" ["--raw"];
  for_each (Py.split "010" (Py.strip output)) refresh_line.

Definition set_config (line : string) : M state unit :=
  emit (AppendStartup line).

Definition tags_for_product `{IterOrder} (product_name : string)
  : M state (gset string) :=
  tr ← tracker; lift (ProductTracker.tags_for_product tr product_name).

Definition truthy_arg (a : option string) : bool :=
  match a with Some s => Py.truthy s | None => false end.

Definition distrib_install_args (product_name : string)
    (version tag : option string) : list string :=
  let args := ["install"; "--no-server-tags"; product_name] in
  let args := if truthy_arg version then args ++ [default "" version] else args in
  if truthy_arg tag then args ++ ["-t"; default "" tag] else args.

Definition distrib_install `{Env} (product_name : string)
    (version tag : option string) : M state unit :=
  output ← _run_cmd "distrib" (distrib_install_args product_name version tag);
  emit (Print output);;
  _refresh_products.

Definition quote : string := String "034" "".

Definition add_global_tag (tagname : string) : M state unit :=
  set_config ("hooks.config.Eups.globalTags += [" +:+ quote +:+ tagname
              +:+ quote +:+ "]").

Definition tags `{Env} : M state (list string) :=
  output ← _run_cmd "tags" []; mret (Py.split_ws output).

Definition apply_tag `{Env} `{IterOrder} (product_name version tagname : string)
  : M state unit :=
  tr ← tracker;
  if ProductTracker.has_version tr product_name version then
    _run_cmd "declare" ["-t"; tagname; product_name; version];;
    tracker_insert product_name version (Some tagname)
  else mret tt.

(** Return the version of [product_name] which is tagged [tag]; falling
    off the loop returns [None]. *)
Definition version_from_tag `{IterOrder} (product_name tag : string)
  : M state (option string) :=
  tr ← tracker;
  mret (snd <$> List.find (λ pv, bool_decide (pv.1 = product_name))
                          (ProductTracker.products_for_tag tr tag)).

(** The environment [__init__] reads from the output of [env -0]: the
    entries are separated by NUL, an entry is split at its first [=], an
    entry without [=] is dropped, a later entry replaces an earlier one of
    the same name. *)
Definition eups_environ (output : string) : gmap string string :=
  foldl (λ env var,
           match Py.split_once "=" var with
           | [name; value] => <[name := value]> env
           | _ => env
           end)
        ∅ (Py.split "000" output).

Definition LSST_CONDA_ENV_NAME : string := "lsst-scipipe".

(** [l.insert(i, x)] for [i] within the list. *)
Definition list_insert_at {A} (i : nat) (x : A) (l : list A) : list A :=
  take i l ++ x :: drop i l.

(** The test [if "action" == "install"] compares two string literals. *)
Definition conda `{Env} (action package_name : string) (version : option string)
  : M state string :=
  let package :=
    if truthy_arg version then package_name +:+ "=" +:+ default "" version
    else package_name in
  let to_exec := ["conda"; action; "--name"; LSST_CONDA_ENV_NAME; "--yes"; package] in
  let to_exec :=
    if bool_decide ("action" = "install")
    then list_insert_at 2 "--no-update-deps" to_exec
    else to_exec in
  _check_output to_exec.

End StackManager.

(** ** class RepositoryManager *)

Module RepositoryManager.

Record t : Type := mk {
  _product_tracker : ProductTracker.t;
  tag_dates : gmap string Z;
}.

(** What the server returns for one anchor of the index page: its text,
    and the date and body of the file it links to.  Dates are seconds. *)
Record listing : Type := mkListing {
  text : string;
  last_modified : Z;
  body : string;
}.

Definition read_line (tag line : string) (self : t) : exn + t :=
  if Py.contains ("EUPS distribution " +:+ tag +:+ " version list") line
  then inr self
  else
    match Py.strip line with
    | EmptyString => inl IndexError
    | String c _ =>
        if Ascii.eqb c "#" then inr self
        else
          match Py.split_ws line with
          | [product; flavor; version] =>
              tr ← ProductTracker.insert (_product_tracker self)
                     product version (Some tag);
              inr {| _product_tracker := tr; tag_dates := tag_dates self |}
          | _ => inl ValueError
          end
    end.

Definition read_listing (pattern : string → bool) (el : listing) (self : t)
  : exn + t :=
  if bool_decide (Py.last_chars 5 (text el) = ".list") && pattern (text el) then
    let tag := Py.drop_last 5 (text el) in
    let self := {| _product_tracker := _product_tracker self;
                   tag_dates := <[tag := last_modified el]> (tag_dates self) |} in
    foldl (λ acc line, self ← acc; read_line tag line self) (inr self)
          (Py.split "010" (Py.strip (body el)))
  else inr self.

(** [pattern] is [re.match] of the configured expression. *)
Definition __init__ (pattern : string → bool) (index : list listing) : exn + t :=
  foldl (λ acc el, self ← acc; read_listing pattern el self)
        (inr {| _product_tracker := ProductTracker.__init__; tag_dates := ∅ |})
        index.

Definition tags_for_product `{IterOrder} (self : t) (product_name : string) :=
  ProductTracker.tags_for_product (_product_tracker self) product_name.

Definition products_for_tag `{IterOrder} (self : t) (tag : string) :=
  ProductTracker.products_for_tag (_product_tracker self) tag.

End RepositoryManager.

(** ** The loop of [main] *)

Section main.
Context `{IterOrder} `{Env}.
Import StackManager.

Definition tag_date (rm : RepositoryManager.t) (tag : string) : exn + Z :=
  match RepositoryManager.tag_dates rm !! tag with
  | Some d => inr d
  | None => inl KeyError
  end.

(** After a successful install: register the tag if it is not declared
    yet, then apply it to every product of the release. *)
Definition main_declare (rm : RepositoryManager.t) (tag : string)
  : M state unit :=
  declared ← tags;
  (if bool_decide (tag ∈ declared) then mret tt
   else emit (Print ("  Adding global tag " +:+ tag));;
        add_global_tag tag);;
  emit (Print ("  Applying tag " +:+ tag));;
  for_each (RepositoryManager.products_for_tag rm tag)
           (λ pv, apply_tag pv.1 pv.2 tag).

(** The body of the [try]. *)
Definition main_install_block (rm : RepositoryManager.t) (product tag : string)
  : M state unit :=
  distrib_install product None (Some tag);;
  main_declare rm tag.

(** One round of [for tag in candidate_tags]. *)
Definition main_install_tag (rm : RepositoryManager.t) (product tag : string)
  : M state unit :=
  emit (Print ("  Installing " +:+ product +:+ " tagged " +:+ tag));;
  except_CalledProcessError
    (main_install_block rm product tag)
    (emit (Print ("  Failed to install " +:+ product +:+ " tagged " +:+ tag
                  +:+ "; skipping"))).

(** [max(available_tags, key=lambda tag: rm.tag_dates[tag])] *)
Definition main_current_tag (rm : RepositoryManager.t)
    (available_tags : gset string) : exn + string :=
  py_max (set_iter available_tags) (tag_date rm).

(** Tag as current based on date ordering on server. *)
Definition main_elect_current (rm : RepositoryManager.t) (product : string)
    (server_tags : gset string) : M state unit :=
  local_tags ← tags_for_product product;
  let available_tags := server_tags ∩ local_tags in
  if decide (available_tags = ∅) then mret tt
  else
    current_tag ← lift (main_current_tag rm available_tags);
    emit (Print ("  Marking " +:+ product +:+ " " +:+ current_tag
                 +:+ " as current"));;
    for_each (RepositoryManager.products_for_tag rm current_tag)
             (λ pv, apply_tag pv.1 pv.2 "current").

(** The candidates and the loop over them. *)
Definition main_install_phase (rm : RepositoryManager.t) (product : string)
    (server_tags : gset string) : M state unit :=
  installed_tags ← tags_for_product product;
  let candidate_tags := server_tags ∖ installed_tags in
  for_each (set_iter candidate_tags) (main_install_tag rm product).

(** One round of [for product in cfg.products]. *)
Definition main_product (rm : RepositoryManager.t) (product : string)
  : M state unit :=
  emit (Print ("Considering " +:+ product));;
  server_tags ← lift (RepositoryManager.tags_for_product rm product);
  main_install_phase rm product server_tags;;
  main_elect_current rm product server_tags.

Definition main_loop (rm : RepositoryManager.t) (products : list string)
  : M state unit :=
  for_each products (main_product rm).

End main.

(** * Vocabulary of the statements *)

(** ** The catalogue *)

(** The tag set of a version after [insert] was called with [tag]. *)
Definition with_tag (tag : option string) (s : gset string) : gset string :=
  match tag with
  | Some t => if Py.truthy t then {[t]} ∪ s else s
  | None => s
  end.

(** The tags a tracker has for a version: none when it does not know it. *)
Definition tags_before (tr : ProductTracker.t) (product version : string)
  : gset string :=
  default ∅ (ProductTracker._products tr !! product
             ≫= λ p, Product._versions p !! version).

(** The tracker [insert] leaves behind, in closed form. *)
Definition inserted (tr : ProductTracker.t) (product version : string)
    (tag : option string) : ProductTracker.t :=
  let old := default (Product.__init__ product)
                     (ProductTracker._products tr !! product) in
  let tagset := default ∅ (Product._versions old !! version) in
  {| ProductTracker._products :=
       <[product := {| Product.name := Product.name old;
                       Product._versions :=
                         <[version := with_tag tag tagset]> (Product._versions old) |}]>
         (ProductTracker._products tr) |}.

Arguments inserted : simpl never.

(** A tracker as the public interface builds it: a fresh one, then calls
    of [insert(product, version, tag)].  The other methods only read. *)
Definition tracker_after (calls : list (string * string * option string))
  : exn + ProductTracker.t :=
  foldl (λ acc c, tr ← acc; ProductTracker.insert tr c.1.1 c.1.2 c.2)
        (inr ProductTracker.__init__) calls.

(** The calls that change a [Product]. *)
Inductive product_call : Type :=
| AddVersion (version : string)
| AddTag (version tag : string).

Definition product_step (p : Product.t) (c : product_call) : exn + Product.t :=
  match c with
  | AddVersion v => inr (Product.add_version p v)
  | AddTag v t => Product.add_tag p v t
  end.

Definition product_after (name : string) (calls : list product_call)
  : exn + Product.t :=
  foldl (λ acc c, p ← acc; product_step p c) (inr (Product.__init__ name)) calls.

(** Every tracked product has a version. *)
Definition has_versions (tr : ProductTracker.t) : Prop :=
  ∀ n p, ProductTracker._products tr !! n = Some p → Product._versions p ≠ ∅.

(** ** Concrete scenarios *)

(** Version 1.0 registered and left untagged, 2.0 tagged, 3.0 unknown. *)
Definition afw_calls : list product_call :=
  [AddVersion "1.0"; AddVersion "2.0"; AddTag "2.0" "w_2020_10"].

Definition afw_product : Product.t :=
  {| Product.name := "afw";
     Product._versions := {[ "1.0" := ∅; "2.0" := {[ "w_2020_10" ]} ]} |}.

(** ** The election *)

(** [t], with key [kt], is the first element of [l] with the largest key:
    keys left of it are smaller, keys right of it are not larger. *)
Definition first_maximal {A} (key : A → exn + Z) (l : list A) (t : A) (kt : Z)
  : Prop :=
  key t = inr kt ∧
  ∃ pre post, l = pre ++ t :: post ∧
    (∀ u, u ∈ pre → ∃ ku, key u = inr ku ∧ ku < kt) ∧
    (∀ u, u ∈ post → ∃ ku, key u = inr ku ∧ ku ≤ kt).

(** The local catalogue of a state. *)
Definition local_tracker (s : StackManager.state) : ProductTracker.t :=
  StackManager._product_tracker (StackManager.self s).

(** The state with further effects recorded. *)
Definition after (s : StackManager.state) (events : list event)
  : StackManager.state :=
  {| StackManager.history := StackManager.history s ++ events;
     StackManager.self := StackManager.self s |}.

(** What [main] does once [current_tag] is chosen. *)
Definition mark_current `{IterOrder} `{Env} (rm : RepositoryManager.t)
    (product current_tag : string) : M StackManager.state unit :=
  StackManager.emit (Print ("  Marking " +:+ product +:+ " " +:+ current_tag
                            +:+ " as current"));;
  for_each (RepositoryManager.products_for_tag rm current_tag)
           (λ pv, StackManager.apply_tag pv.1 pv.2 "current").

(** A world where every command exits with status 0 and prints [output]. *)
Definition constant_env (output : string) : Env :=
  {| run_process := λ _ _, (0, output) |}.

Definition fresh_state : StackManager.state :=
  {| StackManager.history := [];
     StackManager.self := {| StackManager.stack_dir := "/ssd/lsstsw/stack";
                             StackManager._product_tracker :=
                               ProductTracker.__init__ |} |}.

Definition empty_rm : RepositoryManager.t :=
  {| RepositoryManager._product_tracker := ProductTracker.__init__;
     RepositoryManager.tag_dates := ∅ |}.

Definition rm_of (index : list RepositoryManager.listing) : RepositoryManager.t :=
  match RepositoryManager.__init__ (λ _, true) index with
  | inr rm => rm
  | inl _ => empty_rm
  end.

(** Three releases of product P, published in January, March and February
    2020, all installed. *)
Definition abc_index : list RepositoryManager.listing :=
  [ {| RepositoryManager.text := "A.list";
       RepositoryManager.last_modified := 1577836800;
       RepositoryManager.body := "P generic 1.0" |};
    {| RepositoryManager.text := "B.list";
       RepositoryManager.last_modified := 1583020800;
       RepositoryManager.body := "P generic 3.0" |};
    {| RepositoryManager.text := "C.list";
       RepositoryManager.last_modified := 1580515200;
       RepositoryManager.body := "P generic 2.0" |} ].

Definition abc_rm : RepositoryManager.t := rm_of abc_index.

Definition abc_inventory : string :=
  "P|1.0|A" +:+ String "010" "P|2.0|C" +:+ String "010" "P|3.0|B".

Definition abc_env : Env := constant_env abc_inventory.

Definition abc_state : StackManager.state :=
  (@StackManager._refresh_products abc_env fresh_state).2.

(** Two releases published at the same second. *)
Definition tie_rm : RepositoryManager.t :=
  {| RepositoryManager._product_tracker := ProductTracker.__init__;
     RepositoryManager.tag_dates := {[ "a" := 1583020800; "b" := 1583020800 ]} |}.

(** ** Effects of a computation *)

Definition with_tracker (s : StackManager.state) (tr : ProductTracker.t)
  : StackManager.state :=
  {| StackManager.history := StackManager.history s;
     StackManager.self :=
       {| StackManager.stack_dir := StackManager.stack_dir (StackManager.self s);
          StackManager._product_tracker := tr |} |}.

(** The command line of [distrib_install(product, tag=tag)]. *)
Definition install_argv (product tag : string) : list string :=
  ["eups"; "--nolocks"; "distrib"]
    ++ StackManager.distrib_install_args product None (Some tag).

(** The command line [apply_tag] runs. *)
Definition declare_argv (tagname product version : string) : list string :=
  ["eups"; "--nolocks"; "declare"; "-t"; tagname; product; version].

(** An [eups distrib] process, the only way the engine installs. *)
Definition is_distrib (e : event) : bool :=
  match e with
  | Exec ("eups" :: "--nolocks" :: "distrib" :: _) => true
  | _ => false
  end.

Definition quiet (e : event) : Prop := is_distrib e = false.

Definition process_error (e : exn) : Prop :=
  ∃ returncode cmd, e = CalledProcessError returncode cmd.

(** Whatever the state, [m] only appends events satisfying [ok] to the
    history, and an exception leaving it satisfies [err]. *)
Definition behaves {A} (m : M StackManager.state A)
    (ok : event → Prop) (err : exn → Prop) : Prop :=
  ∀ s,
    (∃ d, StackManager.history (m s).2 = StackManager.history s ++ d
          ∧ Forall ok d) ∧
    (∀ e, (m s).1 = inl e → err e).

(** Whatever the state, [m] starts the process [argv]. *)
Definition starts {A} (m : M StackManager.state A) (argv : list string) : Prop :=
  ∀ s, ∃ d, StackManager.history (m s).2 = StackManager.history s ++ d
            ∧ Exec argv ∈ d.

(** The state a failed install of [tag] leaves: the attempt and its report
    in the history, the object untouched. *)
Definition install_failed (s : StackManager.state) (product tag output : string)
  : StackManager.state :=
  after s [ Print ("  Installing " +:+ product +:+ " tagged " +:+ tag);
            Exec (install_argv product tag);
            Print "Failed process output:";
            Print output;
            Print ("  Failed to install " +:+ product +:+ " tagged " +:+ tag
                   +:+ "; skipping") ].

(** ** More scenarios *)

Definition nl : string := String "010" "".

Definition list_raw_argv : list string := ["eups"; "--nolocks"; "list"; "--raw"].

(** The inventory line of a release of P: present once its installer ran,
    tagged once the declare ran. *)
Definition inventory_line (h : list event) (version tag : string) : string :=
  if decide (Exec (install_argv "P" tag) ∈ h) then
    "P|" +:+ version +:+ "|"
    +:+ (if decide (Exec (declare_argv tag "P" version) ∈ h) then tag else "")
    +:+ nl
  else "".

(** The server of the three releases, with a stack where the installer
    of release A fails and the other two succeed. *)
Definition t2_env : Env :=
  {| run_process := λ h argv,
       if decide (argv = install_argv "P" "A") then (1, "no such release")
       else if decide (argv = list_raw_argv) then
         (0, inventory_line h "1.0" "A" +:+ inventory_line h "2.0" "C"
             +:+ inventory_line h "3.0" "B")
       else (0, "") |}.

(** The walk of the candidates A, B, C by [trie_order]. *)
Definition t2_considering : StackManager.state :=
  after fresh_state [Print "Considering P"].

Definition t2_before_failure : StackManager.state :=
  (@for_each _ _ ["C"] (@main_install_tag trie_order t2_env abc_rm "P")
             t2_considering).2.

(** A stack where no process succeeds. *)
Definition failing_env : Env := {| run_process := λ _ _, (1, "") |}.

Definition all_failed : StackManager.state :=
  (@main_install_phase trie_order failing_env abc_rm "P" {[ "A"; "B"; "C" ]}
     t2_considering).2.

(** A release T of two products, both on disk after the install; the
    declare command fails. *)
Definition fan_index : list RepositoryManager.listing :=
  [ {| RepositoryManager.text := "T.list";
       RepositoryManager.last_modified := 1583020800;
       RepositoryManager.body := "X generic 1.0" +:+ nl +:+ "Y generic 2.0" |} ].

Definition fan_rm : RepositoryManager.t := rm_of fan_index.

Definition fan_env : Env :=
  {| run_process := λ h argv,
       match argv with
       | "eups" :: "--nolocks" :: "declare" :: _ => (1, "cannot declare")
       | "eups" :: "--nolocks" :: "list" :: _ => (0, "X|1.0|" +:+ nl +:+ "Y|2.0|")
       | _ => (0, "")
       end |}.

Definition fan_installing : StackManager.state :=
  after fresh_state [Print "  Installing X tagged T"].

Definition fan_result : StackManager.state :=
  (@main_install_tag trie_order fan_env fan_rm "X" "T" fresh_state).2.

(** The same release on a stack where every command succeeds. *)
Definition fan_ok_env : Env :=
  {| run_process := λ h argv,
       match argv with
       | "eups" :: "--nolocks" :: "list" :: _ => (0, "X|1.0|" +:+ nl +:+ "Y|2.0|")
       | _ => (0, "")
       end |}.

Definition fan_ok_result : StackManager.state :=
  (@main_install_block trie_order fan_ok_env fan_rm "X" "T" fresh_state).2.

(** Inventories of one line. *)
Definition setup_env : Env := constant_env "afw|1.0|setup:w_2020_10".

Definition up_env : Env := constant_env "afw|1.0|up:w_2020_10".

(** ** Invariants of the two catalogues *)

(** Every tag of the remote catalogue has a publication date. *)
Definition dated (rm : RepositoryManager.t) : Prop :=
  ∀ n p v ts t,
    ProductTracker._products (RepositoryManager._product_tracker rm) !! n = Some p →
    Product._versions p !! v = Some ts → t ∈ ts →
    is_Some (RepositoryManager.tag_dates rm !! t).

(** [m] keeps the property [I] of the local catalogue. *)
Definition keeps (I : ProductTracker.t → Prop) {A}
    (m : M StackManager.state A) : Prop :=
  ∀ s, I (local_tracker s) → I (local_tracker (m s).2).

Definition remote_ok (rm : RepositoryManager.t) : Prop :=
  has_versions (RepositoryManager._product_tracker rm) ∧ dated rm.

(** ** Facts a catalogue holds *)

(** [version] of [product] is registered. *)
Definition registered (tr : ProductTracker.t) (product version : string) : Prop :=
  ∃ p, ProductTracker._products tr !! product = Some p
       ∧ is_Some (Product._versions p !! version).

(** [version] of [product] carries [tag]. *)
Definition tracks (tr : ProductTracker.t) (product version tag : string) : Prop :=
  ∃ p ts, ProductTracker._products tr !! product = Some p
          ∧ Product._versions p !! version = Some ts ∧ tag ∈ ts.

(** Each product is filed under its own name. *)
Definition names_ok (tr : ProductTracker.t) : Prop :=
  ∀ n p, ProductTracker._products tr !! n = Some p → Product.name p = n.

(** The tag set filed for a version, if the version is registered. *)
Definition tagset (tr : ProductTracker.t) (product version : string)
  : option (gset string) :=
  ProductTracker._products tr !! product ≫= λ p, Product._versions p !! version.

(** ** Characters of a string *)

(** [c in s] for a character. *)
Fixpoint mentions (c : ascii) (s : string) : bool :=
  match s with
  | EmptyString => false
  | String c' s' => Ascii.eqb c' c || mentions c s'
  end.

(** [s.count(c)] for a character. *)
Fixpoint count_char (c : ascii) (s : string) : nat :=
  match s with
  | EmptyString => 0%nat
  | String c' s' => ((if Ascii.eqb c' c then 1 else 0) + count_char c s')%nat
  end.


(** The tags of a list that [_refresh_products] keeps. *)
Definition kept_tags (tags : list string) : list string :=
  List.filter (λ tag, negb (Py.contains tag "setup")) tags.

Definition is_print (e : event) : Prop := ∃ text, e = Print text.





(** ** What the loop of [main] does to the world *)

Definition tags_argv : list string := ["eups"; "--nolocks"; "tags"].

Definition global_tag_line (tag : string) : string :=
  "hooks.config.Eups.globalTags += [" +:+ StackManager.quote +:+ tag
  +:+ StackManager.quote +:+ "]".

(** The effects the loop can have: a line printed, one of four [eups]
    commands started, a global tag appended to startup.py. *)
Inductive engine_event : event → Prop :=
| ev_print text : engine_event (Print text)
| ev_install product tag : engine_event (Exec (install_argv product tag))
| ev_list : engine_event (Exec list_raw_argv)
| ev_tags : engine_event (Exec tags_argv)
| ev_declare tagname product version :
    engine_event (Exec (declare_argv tagname product version))
| ev_global tag : engine_event (AppendStartup (global_tag_line tag)).

(** The exceptions the loop can end with on well-formed catalogues. *)
Definition loop_error (e : exn) : Prop :=
  e = ValueError
  ∨ ∃ returncode product version,
      e = CalledProcessError returncode (declare_argv "current" product version).

Definition declare_error (tagname : string) (e : exn) : Prop :=
  ∃ returncode product version,
    e = CalledProcessError returncode (declare_argv tagname product version).

(** Both invariants of a catalogue built by [insert]. *)
Definition well_filed (tr : ProductTracker.t) : Prop :=
  has_versions tr ∧ names_ok tr.

(** ** Scenarios for the further properties *)

(** An inventory command that prints a line without fields. *)
Definition garbage_env : Env := constant_env "garbage".


Definition abc_elected : StackManager.state :=
  (@main_elect_current trie_order abc_env abc_rm "P" {[ "A"; "B"; "C" ]}
     abc_state).2.

(** ** The environment of the stack *)

(** What [env -0] prints for a list of variables: each [name=value]
    followed by NUL. *)
Fixpoint env0 (vars : list (string * string)) : string :=
  match vars with
  | [] => ""
  | (name, value) :: vars' =>
      name +:+ "=" +:+ value +:+ String "000" (env0 vars')
  end.

(** A name without [=] or NUL, a value without NUL. *)
Definition env_var (nv : string * string) : Prop :=
  mentions "=" nv.1 = false ∧ mentions "000" nv.1 = false
  ∧ mentions "000" nv.2 = false.

(** * Proofs *)

(** ** Iteration orders enumerate the elements *)

Section iteration.
Context `{IterOrder}.

Lemma elem_of_set_iter (s : gset string) x : x ∈ set_iter s ↔ x ∈ s.
Proof. rewrite set_iter_perm. apply elem_of_elements. Qed.

Lemma set_iter_nil (s : gset string) : set_iter s = [] ↔ s = ∅.
Proof.
  split.
  - intros Hnil. apply set_eq. intros x.
    rewrite <- elem_of_set_iter, Hnil. set_solver.
  - intros ->. apply Permutation_nil_r. rewrite set_iter_perm.
    by rewrite elements_empty.
Qed.

Lemma NoDup_set_iter (s : gset string) : NoDup (set_iter s).
Proof. rewrite set_iter_perm. apply NoDup_elements. Qed.

Lemma elem_of_dict_iter {V} (m : gmap string V) k v :
  (k, v) ∈ dict_iter m ↔ m !! k = Some v.
Proof. rewrite dict_iter_perm. apply elem_of_map_to_list. Qed.

Lemma dict_iter_nil {V} (m : gmap string V) : dict_iter m = [] ↔ m = ∅.
Proof.
  split.
  - intros Hnil. apply map_eq. intros k. rewrite lookup_empty.
    destruct (m !! k) as [v|] eqn:E; [|done].
    apply elem_of_dict_iter in E. rewrite Hnil in E. set_solver.
  - intros ->. apply Permutation_nil_r. rewrite dict_iter_perm.
    by rewrite map_to_list_empty.
Qed.

Lemma elem_of_dict_keys {V} (m : gmap string V) k :
  k ∈ (dict_iter m).*1 ↔ is_Some (m !! k).
Proof.
  rewrite list_elem_of_fmap. split.
  - intros [[k' v] [-> Hin]]. apply elem_of_dict_iter in Hin. by eexists.
  - intros [v Hv]. exists (k, v). split; [done|]. by apply elem_of_dict_iter.
Qed.

Lemma elem_of_dict_values {V} (m : gmap string V) v :
  v ∈ (dict_iter m).*2 ↔ ∃ k, m !! k = Some v.
Proof.
  rewrite list_elem_of_fmap. split.
  - intros [[k v'] [-> Hin]]. apply elem_of_dict_iter in Hin. by exists k.
  - intros [k Hk]. exists (k, v). split; [done|]. by apply elem_of_dict_iter.
Qed.

End iteration.

(** ** [Product] and [ProductTracker] *)

Lemma insert_inserted tr product version tag :
  ProductTracker.insert tr product version tag
  = inr (inserted tr product version tag).
Proof.
  unfold ProductTracker.insert, inserted.
  destruct tr as [m]; simpl.
  destruct (m !! product) as [p|] eqn:Hp; simpl.
  - rewrite Hp. unfold Product.add_version.
    destruct (Product._versions p !! version) as [s|] eqn:Hv; simpl.
    + rewrite (insert_id m product p Hp).
      assert (Hsame : <[product := {| Product.name := Product.name p;
                                      Product._versions :=
                                        <[version := s]> (Product._versions p) |}]> m
                      = m).
      { rewrite (insert_id _ version s Hv). apply insert_id.
        by destruct p. }
      destruct tag as [tag|]; simpl.
      * destruct (Py.truthy tag); simpl.
        -- unfold Product.add_tag. by rewrite Hv.
        -- by rewrite Hsame.
      * by rewrite Hsame.
    + destruct tag as [tag|]; simpl.
      * destruct (Py.truthy tag); simpl.
        -- unfold Product.add_tag; simpl. rewrite lookup_insert_eq.
           by rewrite !insert_insert_eq, (right_id_L ∅ (∪)).
        -- done.
      * done.
  - rewrite lookup_insert_eq. unfold Product.add_version; simpl.
    rewrite lookup_empty.
    destruct tag as [tag|]; simpl.
    + destruct (Py.truthy tag); simpl.
      * unfold Product.add_tag; simpl. rewrite lookup_insert_eq.
        by rewrite !insert_insert_eq, (right_id_L ∅ (∪)).
      * by rewrite insert_insert_eq.
    + by rewrite insert_insert_eq.
Qed.

Lemma with_tag_idemp tag s : with_tag tag (with_tag tag s) = with_tag tag s.
Proof.
  destruct tag as [t|]; simpl; [|done].
  destruct (Py.truthy t); [|done].
  by rewrite (assoc_L (∪)), (idemp_L (∪)).
Qed.

Lemma inserted_idemp tr product version tag :
  inserted (inserted tr product version tag) product version tag
  = inserted tr product version tag.
Proof.
  unfold inserted; simpl. rewrite !lookup_insert_eq; simpl.
  rewrite lookup_insert_eq; simpl.
  by rewrite with_tag_idemp, !insert_insert_eq.
Qed.

(** C9. [ProductTracker.insert] never raises, whatever the tracker and the
    triple, and a second call with the same triple changes nothing: the
    tracker after two calls is the tracker after one.  After the call the
    version is registered, with the tags it had and the tag given. *)
Theorem insert_total_idempotent (tr : ProductTracker.t)
    (product version : string) (tag : option string) :
  ∃ tr1,
    ProductTracker.insert tr product version tag = inr tr1 ∧
    ProductTracker.insert tr1 product version tag = inr tr1 ∧
    ∃ p, ProductTracker._products tr1 !! product = Some p ∧
         Product._versions p !! version
         = Some (with_tag tag (tags_before tr product version)).
Proof.
  exists (inserted tr product version tag). split; [|split].
  - apply insert_inserted.
  - by rewrite insert_inserted, inserted_idemp.
  - unfold inserted; simpl. rewrite lookup_insert_eq. eexists. split; [done|].
    simpl. rewrite lookup_insert_eq. unfold tags_before.
    by destruct (ProductTracker._products tr !! product).
Qed.

Lemma tracker_after_snoc calls c :
  tracker_after (calls ++ [c])
  = tr ← tracker_after calls; ProductTracker.insert tr c.1.1 c.1.2 c.2.
Proof. unfold tracker_after. by rewrite foldl_snoc. Qed.

Lemma has_versions_init : has_versions ProductTracker.__init__.
Proof. intros n p. simpl. by rewrite lookup_empty. Qed.

Lemma has_versions_inserted tr product version tag :
  has_versions tr → has_versions (inserted tr product version tag).
Proof.
  intros Hwf n p. unfold inserted; simpl.
  destruct (decide (product = n)) as [->|Hne].
  - rewrite lookup_insert_eq. intros [= <-]; simpl.
    apply insert_non_empty.
  - rewrite lookup_insert_ne by done. apply Hwf.
Qed.

Lemma elem_of_foldl_union (s : gset string) (sets : list (gset string)) t :
  t ∈ foldl (∪) s sets ↔ t ∈ s ∨ ∃ ts, ts ∈ sets ∧ t ∈ ts.
Proof.
  revert s. induction sets as [|u sets IH]; intros s; simpl.
  - set_solver.
  - rewrite IH, elem_of_union. split.
    + intros [[?|?]|(ts & ? & ?)]; [by left| |];
        right; eexists; (split; [|done]); set_solver.
    + intros [?|(ts & [->|?]%elem_of_cons & ?)]; [by left; left|by left; right|].
      right. by exists ts.
Qed.

Lemma set_union_spec (sets : list (gset string)) :
  sets ≠ [] →
  ∃ s, Product.set_union sets = inr s ∧ ∀ t, t ∈ s ↔ ∃ ts, ts ∈ sets ∧ t ∈ ts.
Proof.
  destruct sets as [|u sets]; [done|]. intros _. eexists. split; [done|].
  intros t. rewrite elem_of_foldl_union. split.
  - intros [?|(ts & ? & ?)]; eexists; (split; [|done]); set_solver.
  - intros (ts & [->|?]%elem_of_cons & ?); [by left|]. right. by exists ts.
Qed.

Section catalogue.
Context `{IterOrder}.

Lemma Product_tags_all (p : Product.t) :
  Product._versions p ≠ ∅ →
  ∃ s, Product.tags p None = inr s ∧
       ∀ t, t ∈ s ↔ ∃ v ts, Product._versions p !! v = Some ts ∧ t ∈ ts.
Proof.
  intros Hne. unfold Product.tags.
  destruct (set_union_spec (dict_iter (Product._versions p)).*2) as (s & -> & Hs).
  { intros Hnil. apply fmap_nil_inv in Hnil. by apply dict_iter_nil in Hnil. }
  exists s. split; [done|]. intros t. rewrite Hs. split.
  - intros (ts & [v Hv]%elem_of_dict_values & Ht). by exists v, ts.
  - intros (v & ts & Hv & Ht). exists ts. split; [|done].
    apply elem_of_dict_values. by exists v.
Qed.

Lemma Product_tags_empty (p : Product.t) :
  Product._versions p = ∅ → Product.tags p None = inl TypeError.
Proof.
  intros Hnil. unfold Product.tags.
  apply dict_iter_nil in Hnil. by rewrite Hnil.
Qed.

Lemma tags_for_product_spec (tr : ProductTracker.t) (product_name : string) :
  has_versions tr →
  ∃ s, ProductTracker.tags_for_product tr product_name = inr s ∧
       ∀ t, t ∈ s ↔ ∃ p v ts, ProductTracker._products tr !! product_name = Some p
                            ∧ Product._versions p !! v = Some ts ∧ t ∈ ts.
Proof.
  intros Hwf. unfold ProductTracker.tags_for_product.
  destruct (ProductTracker._products tr !! product_name) as [p|] eqn:Hp.
  - destruct (Product_tags_all p (Hwf _ _ Hp)) as (s & -> & Hs). simpl.
    exists s. split; [done|]. intros t. rewrite Hs. naive_solver.
  - exists ∅. split; [done|]. intros t. set_solver.
Qed.

Lemma tracker_after_inr calls :
  ∃ tr, tracker_after calls = inr tr ∧ has_versions tr.
Proof.
  induction calls as [|c calls IH] using rev_ind.
  - exists ProductTracker.__init__. split; [done|]. apply has_versions_init.
  - destruct IH as (tr & Htr & Hwf). rewrite tracker_after_snoc, Htr. simpl.
    rewrite insert_inserted. eexists. split; [done|].
    by apply has_versions_inserted.
Qed.

(** C10. However a tracker was built through its interface (a fresh
    tracker, then any calls of [insert]; the other methods do not write),
    every product in it has a registered version, and [tags_for_product]
    returns a set for every name: the union over the versions of the
    product, never the [TypeError] of a union over nothing. *)
Theorem tracked_products_have_versions
    (calls : list (string * string * option string)) :
  ∃ tr,
    tracker_after calls = inr tr ∧
    (∀ n p, ProductTracker._products tr !! n = Some p →
            ∃ v ts, Product._versions p !! v = Some ts) ∧
    (∀ n, ∃ s,
        ProductTracker.tags_for_product tr n = inr s ∧
        ∀ t, t ∈ s ↔ ∃ p v ts, ProductTracker._products tr !! n = Some p
                             ∧ Product._versions p !! v = Some ts ∧ t ∈ ts).
Proof.
  destruct (tracker_after_inr calls) as (tr & Htr & Hwf).
  exists tr. split; [done|]. split.
  - intros n p Hp. specialize (Hwf n p Hp).
    destruct (map_choose _ Hwf) as (v & ts & Hv). by exists v, ts.
  - intros n. by apply tags_for_product_spec.
Qed.

End catalogue.

Lemma product_after_snoc name calls c :
  product_after name (calls ++ [c])
  = p ← product_after name calls; product_step p c.
Proof. unfold product_after. by rewrite foldl_snoc. Qed.

(** What a product knows about a version is what the calls told it. *)
Lemma product_after_lookup name calls p v :
  product_after name calls = inr p →
  match Product._versions p !! v with
  | None => (AddVersion v ∉ calls) ∧ ∀ t, AddTag v t ∉ calls
  | Some s => AddVersion v ∈ calls ∧ ∀ t, t ∈ s ↔ AddTag v t ∈ calls
  end.
Proof.
  revert p. induction calls as [|c calls IH] using rev_ind; intros p.
  - intros [= <-]. simpl. rewrite lookup_empty. set_solver.
  - rewrite product_after_snoc.
    destruct (product_after name calls) as [e|p0]; [done|]. simpl.
    specialize (IH p0 eq_refl). destruct c as [v'|v' t']; simpl.
    + intros [= <-]. unfold Product.add_version.
      destruct (Product._versions p0 !! v') as [s'|] eqn:Hv'.
      * destruct (Product._versions p0 !! v) as [s|] eqn:Hv.
        -- destruct IH as [IH1 IH2]. split; [set_solver|].
           intros t. rewrite IH2. set_solver.
        -- destruct IH as [IH1 IH2]. split.
           ++ intros [?|Hin]%elem_of_app; [done|].
              apply list_elem_of_singleton in Hin. congruence.
           ++ intros t. specialize (IH2 t). set_solver.
      * simpl. destruct (decide (v' = v)) as [->|Hne].
        -- rewrite lookup_insert_eq. rewrite Hv' in IH. destruct IH as [IH1 IH2].
           split; [set_solver|].
           intros t. specialize (IH2 t). set_solver.
        -- rewrite lookup_insert_ne by done.
           destruct (Product._versions p0 !! v) as [s|] eqn:Hv.
           ++ destruct IH as [IH1 IH2]. split; [set_solver|].
              intros t. rewrite IH2. set_solver.
           ++ destruct IH as [IH1 IH2]. split.
              ** intros [?|Hin]%elem_of_app; [done|].
                 apply list_elem_of_singleton in Hin. congruence.
              ** intros t. specialize (IH2 t). set_solver.
    + unfold Product.add_tag.
      destruct (Product._versions p0 !! v') as [s'|] eqn:Hv'; [|done].
      intros [= <-]; simpl. destruct (decide (v' = v)) as [->|Hne].
      * rewrite lookup_insert_eq. rewrite Hv' in IH. destruct IH as [IH1 IH2].
        split; [set_solver|]. intros t.
        rewrite elem_of_union, elem_of_singleton, IH2, elem_of_app,
          list_elem_of_singleton.
        split; [intros [->|?]; auto|intros [?|[= ->]]; auto].
      * rewrite lookup_insert_ne by done.
        destruct (Product._versions p0 !! v) as [s|] eqn:Hv.
        -- destruct IH as [IH1 IH2]. split; [set_solver|].
           intros t. rewrite IH2, elem_of_app, list_elem_of_singleton.
           split; [auto|intros [?|[= -> ->]]; done].
        -- destruct IH as [IH1 IH2]. split; [set_solver|].
           intros t [?|Hin]%elem_of_app; [by eapply IH2|].
           apply list_elem_of_singleton in Hin. congruence.
Qed.

Section version_tags.
Context `{IterOrder}.

(** C8. For a product built by calls of [add_version] and [add_tag],
    [tags(version)] raises [KeyError] when [add_version(version)] was
    never called, and returns the tags added to the version when it was:
    the empty set when none was added. *)
Theorem tags_of_version (name : string) (calls : list product_call)
    (p : Product.t) (version : string) :
  product_after name calls = inr p →
  (AddVersion version ∉ calls →
     Product.tags p (Some version) = inl KeyError) ∧
  (AddVersion version ∈ calls →
     ∃ s, Product.tags p (Some version) = inr s ∧
          ∀ t, t ∈ s ↔ AddTag version t ∈ calls) ∧
  (AddVersion version ∈ calls → (∀ t, AddTag version t ∉ calls) →
     Product.tags p (Some version) = inr ∅).
Proof.
  intros Hp. pose proof (product_after_lookup name calls p version Hp) as Hv.
  unfold Product.tags.
  destruct (Product._versions p !! version) as [s|];
    destruct Hv as [Hv1 Hv2]; (split; [|split]).
  - done.
  - intros _. by exists s.
  - intros _ Hnone. f_equal. apply set_eq. intros t.
    rewrite Hv2. split; [intros ?; by destruct (Hnone t)|set_solver].
  - done.
  - done.
  - done.
Qed.

End version_tags.

Lemma tags_of_version_witness :
  Product.tags afw_product (Some "3.0") = inl KeyError ∧
  Product.tags afw_product (Some "1.0") = inr ∅.
Proof.
  pose proof (tags_of_version "afw" afw_calls afw_product "3.0") as H3.
  pose proof (tags_of_version "afw" afw_calls afw_product "1.0") as H1.
  split.
  - apply H3; [by vm_compute|]. unfold afw_calls. set_solver.
  - apply H1; [by vm_compute| |]; unfold afw_calls; set_solver.
Defined.

(** ** The monad *)

Section monad.
Context {σ : Type}.

Lemma run_bind_inr {A B} (m : M σ A) (k : A → M σ B) s a s' :
  m s = (inr a, s') → (m ≫= k) s = k a s'.
Proof. unfold mbind, M_bind. by intros ->. Qed.

Lemma run_bind_inl {A B} (m : M σ A) (k : A → M σ B) s e s' :
  m s = (inl e, s') → (m ≫= k) s = (inl e, s').
Proof. unfold mbind, M_bind. by intros ->. Qed.

Lemma run_bind_assoc {A B C} (m : M σ A) (k : A → M σ B) (h : B → M σ C) s :
  ((m ≫= k) ≫= h) s = (m ≫= (λ a, k a ≫= h)) s.
Proof. unfold mbind, M_bind. by destruct (m s) as [[e|a] s']. Qed.

Lemma for_each_app {A} (l1 l2 : list A) (f : A → M σ unit) s :
  for_each (l1 ++ l2) f s = (for_each l1 f ;; for_each l2 f) s.
Proof.
  revert s. induction l1 as [|x l1 IH]; intros s; simpl; [done|].
  rewrite run_bind_assoc. unfold mbind, M_bind.
  destruct (f x s) as [[e|[]] s']; [done|]. apply IH.
Qed.

End monad.

(** ** [max] with a key *)

Section py_max.
Context {A : Type} (key : A → exn + Z).

Lemma max_from_spec (l seen_l seen_r : list A) (best : A) (bk : Z) :
  key best = inr bk →
  (∀ u, u ∈ seen_l → ∃ ku, key u = inr ku ∧ ku < bk) →
  (∀ u, u ∈ seen_r → ∃ ku, key u = inr ku ∧ ku ≤ bk) →
  (∀ u, u ∈ l → ∃ ku, key u = inr ku) →
  ∃ t kt, max_from key best bk l = inr t ∧
          first_maximal key (seen_l ++ best :: seen_r ++ l) t kt.
Proof.
  revert seen_l seen_r best bk.
  induction l as [|x l IH]; intros seen_l seen_r best bk Hb Hl Hr Hkeys; simpl.
  - exists best, bk. split; [done|]. split; [done|].
    exists seen_l, seen_r. by rewrite app_nil_r.
  - destruct (Hkeys x) as [k Hk]; [set_solver|]. rewrite Hk.
    destruct (Z.ltb_spec bk k) as [Hlt|Hge].
    + destruct (IH (seen_l ++ best :: seen_r) [] x k) as (t & kt & Ht & Hfm).
      * done.
      * intros u [Hu|[->|Hu]%elem_of_cons]%elem_of_app.
        -- destruct (Hl u Hu) as (ku & ? & ?). exists ku. split; [done|lia].
        -- exists bk. split; [done|lia].
        -- destruct (Hr u Hu) as (ku & ? & ?). exists ku. split; [done|lia].
      * intros u Hu. set_solver.
      * intros u Hu. apply Hkeys. set_solver.
      * exists t, kt. split; [done|].
        by rewrite <- app_assoc in Hfm.
    + destruct (IH seen_l (seen_r ++ [x]) best bk) as (t & kt & Ht & Hfm).
      * done.
      * done.
      * intros u [Hu|Hu]%elem_of_app; [by apply Hr|].
        apply list_elem_of_singleton in Hu as ->. exists k. split; [done|lia].
      * intros u Hu. apply Hkeys. set_solver.
      * exists t, kt. split; [done|].
        by rewrite <- app_assoc in Hfm.
Qed.

Lemma py_max_spec (l : list A) :
  l ≠ [] →
  (∀ u, u ∈ l → ∃ ku, key u = inr ku) →
  ∃ t kt, py_max l key = inr t ∧ first_maximal key l t kt.
Proof.
  destruct l as [|x l]; [done|]. intros _ Hkeys. simpl.
  destruct (Hkeys x) as [k Hk]; [set_solver|]. rewrite Hk.
  destruct (max_from_spec l [] [] x k) as (t & kt & Ht & Hfm);
    [done|set_solver|set_solver| |].
  - intros u Hu. apply Hkeys. set_solver.
  - by exists t, kt.
Qed.

Lemma first_maximal_elem (l : list A) t kt : first_maximal key l t kt → t ∈ l.
Proof. intros (_ & pre & post & -> & _). set_solver. Qed.

Lemma first_maximal_max (l : list A) t kt u ku :
  first_maximal key l t kt → u ∈ l → key u = inr ku → ku ≤ kt.
Proof.
  intros (Ht & pre & post & -> & Hpre & Hpost).
  intros [Hu|[->|Hu]%elem_of_cons]%elem_of_app Hku.
  - destruct (Hpre u Hu) as (k & Hk & ?). assert (k = ku) by congruence. lia.
  - assert (kt = ku) by congruence. lia.
  - destruct (Hpost u Hu) as (k & Hk & ?). assert (k = ku) by congruence. lia.
Qed.

End py_max.

(** ** The election of "current" *)

Section election.
Context `{IterOrder} `{Env}.

Lemma run_tags_for_product product s :
  StackManager.tags_for_product product s
  = (ProductTracker.tags_for_product (local_tracker s) product, s).
Proof. done. Qed.

Lemma tag_date_Some rm t d :
  tag_date rm t = inr d ↔ RepositoryManager.tag_dates rm !! t = Some d.
Proof.
  unfold tag_date. destruct (RepositoryManager.tag_dates rm !! t); naive_solver.
Qed.

(** The election when some tag is available: the winner is first-maximal
    in the order the set is walked. *)
Lemma main_current_tag_spec rm (available : gset string) :
  available ≠ ∅ →
  (∀ t, t ∈ available → is_Some (RepositoryManager.tag_dates rm !! t)) →
  ∃ t d, main_current_tag rm available = inr t ∧
         first_maximal (tag_date rm) (set_iter available) t d.
Proof.
  intros Hne Hdates. apply py_max_spec.
  - by rewrite set_iter_nil.
  - intros u Hu%elem_of_set_iter. destruct (Hdates u Hu) as [d Hd].
    exists d. by apply tag_date_Some.
Qed.

Lemma run_main_elect_current rm product server local s :
  ProductTracker.tags_for_product (local_tracker s) product = inr local →
  main_elect_current rm product server s
  = if decide (server ∩ local = ∅) then (inr tt, s)
    else match main_current_tag rm (server ∩ local) with
         | inr t => mark_current rm product t s
         | inl e => (inl e, s)
         end.
Proof.
  intros Hlocal. unfold main_elect_current.
  erewrite run_bind_inr by (rewrite run_tags_for_product, Hlocal; done).
  destruct (decide (server ∩ local = ∅)); [done|].
  unfold mbind at 1, M_bind, lift.
  by destruct (main_current_tag rm (server ∩ local)).
Qed.

(** C2. When some tag of the server is locally present for the product,
    the election picks an available tag whose publication date no other
    available tag exceeds, and goes on to mark the products of that tag
    as current. *)
Theorem elects_latest_available (rm : RepositoryManager.t) (product : string)
    (server local : gset string) (s : StackManager.state) :
  (∀ t, t ∈ server → is_Some (RepositoryManager.tag_dates rm !! t)) →
  ProductTracker.tags_for_product (local_tracker s) product = inr local →
  server ∩ local ≠ ∅ →
  ∃ current_tag d,
    current_tag ∈ server ∩ local ∧
    RepositoryManager.tag_dates rm !! current_tag = Some d ∧
    (∀ t d', t ∈ server ∩ local →
             RepositoryManager.tag_dates rm !! t = Some d' → d' ≤ d) ∧
    main_current_tag rm (server ∩ local) = inr current_tag ∧
    main_elect_current rm product server s
    = mark_current rm product current_tag s.
Proof.
  intros Hdates Hlocal Hne.
  destruct (main_current_tag_spec rm (server ∩ local)) as (t & d & Ht & Hfm);
    [done|set_solver|].
  exists t, d. split; [|split; [|split; [|split]]].
  - apply elem_of_set_iter. by eapply first_maximal_elem.
  - apply tag_date_Some. by destruct Hfm.
  - intros u d' Hu Hd'. eapply first_maximal_max; [done| |].
    + by apply elem_of_set_iter.
    + by apply tag_date_Some.
  - done.
  - rewrite (run_main_elect_current _ _ _ local) by done.
    destruct (decide (server ∩ local = ∅)); [done|]. by rewrite Ht.
Qed.

(** C6, as the code has it.  When every available tag has a date, the
    election picks the first tag, in the order the set is walked, among
    those with the latest date: earlier tags are strictly older, later
    ones not newer.  The name of a tag plays no part. *)
Theorem tie_goes_to_first_in_iteration_order (rm : RepositoryManager.t)
    (available : gset string) :
  available ≠ ∅ →
  (∀ t, t ∈ available → is_Some (RepositoryManager.tag_dates rm !! t)) →
  ∃ t d pre post,
    main_current_tag rm available = inr t ∧
    set_iter available = pre ++ t :: post ∧
    RepositoryManager.tag_dates rm !! t = Some d ∧
    (∀ u, u ∈ pre → ∃ du, RepositoryManager.tag_dates rm !! u = Some du ∧ du < d) ∧
    (∀ u, u ∈ post → ∃ du, RepositoryManager.tag_dates rm !! u = Some du ∧ du ≤ d).
Proof.
  intros Hne Hdates.
  destruct (main_current_tag_spec rm available Hne Hdates)
    as (t & d & Ht & Hd & pre & post & Hl & Hpre & Hpost).
  exists t, d, pre, post. split; [done|]. split; [done|].
  split; [by apply tag_date_Some|]. split.
  - intros u Hu. destruct (Hpre u Hu) as (du & Hdu & ?).
    exists du. split; [by apply tag_date_Some|done].
  - intros u Hu. destruct (Hpost u Hu) as (du & Hdu & ?).
    exists du. split; [by apply tag_date_Some|done].
Qed.

(** C7. If, in the state the install phase leaves, no tag of the server
    is among the local tags of the product, the election does nothing:
    the round of the product ends in that very state, without a declare
    of "current" or any other effect. *)
Theorem no_current_without_available (rm : RepositoryManager.t)
    (product : string) (server local : gset string)
    (s0 s1 : StackManager.state) :
  RepositoryManager.tags_for_product rm product = inr server →
  main_install_phase rm product server
    (after s0 [Print ("Considering " +:+ product)]) = (inr tt, s1) →
  ProductTracker.tags_for_product (local_tracker s1) product = inr local →
  server ∩ local = ∅ →
  main_elect_current rm product server s1 = (inr tt, s1) ∧
  main_product rm product s0 = (inr tt, s1).
Proof.
  intros Hserver Hphase Hlocal Hempty.
  assert (Helect : main_elect_current rm product server s1 = (inr tt, s1)).
  { rewrite (run_main_elect_current _ _ _ local) by done.
    by destruct (decide (server ∩ local = ∅)). }
  split; [done|]. unfold main_product.
  erewrite run_bind_inr by done.
  erewrite run_bind_inr by (unfold lift; rewrite Hserver; done).
  by erewrite run_bind_inr by done.
Qed.

End election.

(** ** Effects of the engine: what is appended, what can be raised *)

Lemma after_after s d1 d2 : after (after s d1) d2 = after s (d1 ++ d2).
Proof. unfold after; simpl. by rewrite app_assoc. Qed.

Lemma after_nil s : after s [] = s.
Proof. destruct s. unfold after; simpl. by rewrite app_nil_r. Qed.

Section behaves.
Import StackManager.

Lemma behaves_weaken {A} (m : M state A) (ok ok' : event → Prop)
    (err err' : exn → Prop) :
  behaves m ok err →
  (∀ e, ok e → ok' e) → (∀ e, err e → err' e) →
  behaves m ok' err'.
Proof.
  intros Hm Hok Herr s. destruct (Hm s) as [(d & Hd & Hall) He]. split.
  - exists d. split; [done|]. eapply Forall_impl; eauto.
  - eauto.
Qed.

Lemma behaves_ret {A} (a : A) ok err : behaves (mret a) ok err.
Proof.
  intros s. split; [|done]. exists []. by rewrite app_nil_r.
Qed.

Lemma behaves_raise {A} (e : exn) ok (err : exn → Prop) :
  err e → behaves (@raise state A e) ok err.
Proof.
  intros He s. split.
  - exists []. by rewrite app_nil_r.
  - simpl. by intros e' [= <-].
Qed.

Lemma behaves_lift {A} (r : exn + A) ok (err : exn → Prop) :
  (∀ e, r = inl e → err e) → behaves (@lift state A r) ok err.
Proof.
  intros He s. split; [|done]. exists []. by rewrite app_nil_r.
Qed.

Lemma behaves_get ok err : behaves (@get state) ok err.
Proof.
  intros s. split; [|done]. exists []. by rewrite app_nil_r.
Qed.

Lemma behaves_emit (e : event) (ok : event → Prop) err :
  ok e → behaves (emit e) ok err.
Proof.
  intros He s. split; [|done]. exists [e]. split; [done|]. by constructor.
Qed.

Lemma behaves_set_tracker tr ok err : behaves (set_tracker tr) ok err.
Proof.
  intros s. split; [|done]. exists []. by rewrite app_nil_r.
Qed.

Lemma behaves_bind {A B} (m : M state A) (k : A → M state B) ok err :
  behaves m ok err → (∀ a, behaves (k a) ok err) →
  behaves (m ≫= k) ok err.
Proof.
  intros Hm Hk s. unfold mbind, M_bind.
  destruct (Hm s) as [(d & Hd & Hall) He].
  destruct (m s) as [[e|a] s1]; simpl in *.
  - split; [by exists d|]. intros e' [= <-]. by apply He.
  - destruct (Hk a s1) as [(d' & Hd' & Hall') He']. split; [|eauto].
    exists (d ++ d'). rewrite Hd', Hd, app_assoc. split; [done|].
    by apply Forall_app.
Qed.

Lemma behaves_for_each {A} (l : list A) (f : A → M state unit) ok err :
  (∀ x, x ∈ l → behaves (f x) ok err) → behaves (for_each l f) ok err.
Proof.
  induction l as [|x l IH]; intros Hf; simpl.
  - apply behaves_ret.
  - apply behaves_bind; [apply Hf; set_solver|].
    intros _. apply IH. intros y Hy. apply Hf. set_solver.
Qed.

Lemma behaves_except (body handler : M state unit) ok (err : exn → Prop) :
  behaves body ok (λ e, err e ∨ process_error e) →
  behaves handler ok err →
  behaves (except_CalledProcessError body handler) ok err.
Proof.
  intros Hb Hh s. unfold except_CalledProcessError.
  destruct (Hb s) as [(d & Hd & Hall) He].
  destruct (body s) as [[e|[]] s1]; simpl in *.
  - destruct e; try (split; [by exists d|];
      intros e' [= <-]; by destruct (He _ eq_refl) as [?|(? & ? & ?)]).
    destruct (Hh s1) as [(d' & Hd' & Hall') He']. split; [|eauto].
    exists (d ++ d'). rewrite Hd', Hd, app_assoc. split; [done|].
    by apply Forall_app.
  - split; [by exists d|done].
Qed.

End behaves.

Lemma tags_for_product_error `{IterOrder} tr product e :
  ProductTracker.tags_for_product tr product = inl e → e = TypeError.
Proof.
  unfold ProductTracker.tags_for_product.
  destruct (ProductTracker._products tr !! product) as [p|]; [|done].
  unfold Product.tags, Product.set_union.
  destruct ((dict_iter (Product._versions p)).*2); simpl; congruence.
Qed.

Lemma max_from_error {A} (key : A → exn + Z) best bk l e :
  max_from key best bk l = inl e → ∃ x, x ∈ l ∧ key x = inl e.
Proof.
  revert best bk. induction l as [|x l IH]; intros best bk; simpl; [done|].
  destruct (key x) as [e'|k] eqn:Hk.
  - intros [= <-]. exists x. split; [set_solver|done].
  - destruct (bk <? k); intros (y & ? & ?)%IH; exists y; (split; [set_solver|done]).
Qed.

Lemma py_max_error {A} (key : A → exn + Z) l e :
  l ≠ [] → py_max l key = inl e → ∃ x, x ∈ l ∧ key x = inl e.
Proof.
  destruct l as [|x l]; [done|]. intros _. simpl.
  destruct (key x) as [e'|k] eqn:Hk.
  - intros [= <-]. exists x. split; [set_solver|done].
  - intros (y & ? & ?)%max_from_error. exists y. split; [set_solver|done].
Qed.

Section engine.
Context `{IterOrder} `{Env}.
Import StackManager.

Lemma run_emit e s : emit e s = (inr tt, after s [e]).
Proof. done. Qed.

Lemma run_check_output argv s :
  _check_output argv s
  = let '(rc, out) := run_process (history s) argv in
    if rc =? 0 then (inr out, after s [Exec argv])
    else (inl (CalledProcessError rc argv),
          after s [Exec argv; Print "Failed process output:"; Print out]).
Proof.
  unfold _check_output, mbind, M_bind, get; simpl.
  destruct (run_process (history s) argv) as [rc out]; simpl.
  destruct (rc =? 0); simpl; [done|].
  unfold after; simpl. by rewrite <- !app_assoc.
Qed.

Lemma run_tracker_insert product version tag s :
  tracker_insert product version tag s
  = (inr tt, with_tracker s (inserted (local_tracker s) product version tag)).
Proof.
  unfold tracker_insert, tracker, mbind, M_bind, get, lift; simpl.
  by rewrite insert_inserted.
Qed.

Lemma behaves_check_output argv :
  behaves (_check_output argv)
          (λ e, e = Exec argv ∨ ∃ t, e = Print t) process_error.
Proof.
  intros s. rewrite run_check_output.
  destruct (run_process (history s) argv) as [rc out].
  destruct (rc =? 0); simpl.
  - split; [|done]. eexists. split; [done|].
    constructor; [by left|constructor].
  - split.
    + eexists. split; [done|].
      constructor; [by left|].
      constructor; [right; by eexists|].
      constructor; [right; by eexists|constructor].
    + intros e [= <-]. by eexists _, _.
Qed.

Lemma behaves_run_cmd cmd args :
  cmd ≠ "distrib" → behaves (_run_cmd cmd args) quiet process_error.
Proof.
  intros Hcmd. eapply behaves_weaken; [apply behaves_check_output| |done].
  intros e [-> | [t ->]]; [|done]. unfold quiet; simpl.
  destruct cmd as [|c cmd]; [done|].
  destruct (decide (String c cmd = "distrib")) as [Heq|Hne]; [done|].
  repeat (match goal with
          | |- context [match ?x with _ => _ end] => destruct x
          end; try done).
Qed.

Lemma behaves_tracker_insert product version tag ok err :
  behaves (tracker_insert product version tag) ok err.
Proof.
  intros s. rewrite run_tracker_insert. split; [|done].
  exists []. by rewrite app_nil_r.
Qed.

Lemma behaves_refresh_line line :
  behaves (refresh_line line) quiet (λ e, e = ValueError).
Proof.
  unfold refresh_line. destruct (decide (line = "")); [apply behaves_ret|].
  destruct (Py.split "|" line) as [|product [|version [|tags [|? ?]]]];
    try by apply behaves_raise.
  apply behaves_bind.
  - destruct (decide (tags = ""));
      [apply behaves_tracker_insert|apply behaves_ret].
  - intros _. apply behaves_for_each. intros tag _.
    destruct (Py.contains tag "setup");
      [apply behaves_ret|apply behaves_tracker_insert].
Qed.

Lemma behaves_refresh_products :
  behaves _refresh_products quiet (λ e, e = ValueError ∨ process_error e).
Proof.
  unfold _refresh_products.
  apply behaves_bind; [apply behaves_set_tracker|]. intros _.
  apply behaves_bind.
  - eapply behaves_weaken; [by apply behaves_run_cmd|done|auto].
  - intros output. apply behaves_for_each. intros line _.
    eapply behaves_weaken; [apply behaves_refresh_line|done|auto].
Qed.

Lemma behaves_tags : behaves tags quiet process_error.
Proof.
  unfold tags. apply behaves_bind; [by apply behaves_run_cmd|].
  intros output. apply behaves_ret.
Qed.

Lemma behaves_apply_tag product version tagname :
  behaves (apply_tag product version tagname) quiet process_error.
Proof.
  unfold apply_tag. apply behaves_bind.
  - unfold tracker. apply behaves_bind; [apply behaves_get|].
    intros s. apply behaves_ret.
  - intros tr. destruct (ProductTracker.has_version tr product version);
      [|apply behaves_ret].
    apply behaves_bind; [by apply behaves_run_cmd|].
    intros _. apply behaves_tracker_insert.
Qed.

Lemma behaves_fan_out (pairs : list (string * string)) tagname :
  behaves (for_each pairs (λ pv, apply_tag pv.1 pv.2 tagname))
          quiet process_error.
Proof. apply behaves_for_each. intros pv _. apply behaves_apply_tag. Qed.

Lemma behaves_tags_for_product product :
  behaves (tags_for_product product) quiet (λ e, e = TypeError).
Proof.
  unfold tags_for_product. apply behaves_bind.
  - unfold tracker. apply behaves_bind; [apply behaves_get|].
    intros s. apply behaves_ret.
  - intros tr. apply behaves_lift. apply tags_for_product_error.
Qed.

(** The installer is started once, for the tag asked for; nothing else
    the call does is an install. *)
Lemma behaves_distrib_install product tag :
  behaves (distrib_install product None (Some tag))
          (λ e, quiet e ∨ e = Exec (install_argv product tag))
          (λ e, e = ValueError ∨ process_error e).
Proof.
  unfold distrib_install. apply behaves_bind.
  - eapply behaves_weaken; [apply behaves_check_output| |auto].
    intros e [-> | [t ->]]; [by right|by left].
  - intros output. apply behaves_bind; [apply behaves_emit; by left|].
    intros _. eapply behaves_weaken; [apply behaves_refresh_products|auto|auto].
Qed.

Lemma behaves_main_declare rm tag :
  behaves (main_declare rm tag) quiet process_error.
Proof.
  unfold main_declare. apply behaves_bind; [apply behaves_tags|].
  intros declared. apply behaves_bind.
  { destruct (bool_decide (tag ∈ declared)); [apply behaves_ret|].
    apply behaves_bind; [by apply behaves_emit|].
    intros _. by apply behaves_emit. }
  intros _. apply behaves_bind; [by apply behaves_emit|].
  intros _. apply behaves_fan_out.
Qed.

Lemma behaves_main_install_block rm product tag :
  behaves (main_install_block rm product tag)
          (λ e, quiet e ∨ e = Exec (install_argv product tag))
          (λ e, e = ValueError ∨ process_error e).
Proof.
  unfold main_install_block.
  apply behaves_bind; [apply behaves_distrib_install|]. intros _.
  eapply behaves_weaken; [apply behaves_main_declare|auto|auto].
Qed.

(** A round of the install loop lets no process error out. *)
Lemma behaves_main_install_tag rm product tag :
  behaves (main_install_tag rm product tag)
          (λ e, quiet e ∨ e = Exec (install_argv product tag))
          (λ e, e = ValueError).
Proof.
  unfold main_install_tag.
  apply behaves_bind; [apply behaves_emit; by left|]. intros _.
  apply behaves_except.
  - apply behaves_main_install_block.
  - apply behaves_emit. by left.
Qed.

Lemma behaves_install_loop rm product (candidates : list string) :
  behaves (for_each candidates (main_install_tag rm product))
          (λ e, quiet e ∨ ∃ t, t ∈ candidates ∧ e = Exec (install_argv product t))
          (λ e, e = ValueError).
Proof.
  apply behaves_for_each. intros t Ht.
  eapply behaves_weaken; [apply behaves_main_install_tag| |done].
  intros e [? | ->]; [by left|]. right. by exists t.
Qed.

(** The election installs nothing and has no line of inventory to
    stumble on. *)
Lemma behaves_main_elect_current rm product server :
  behaves (main_elect_current rm product server) quiet (λ e, e ≠ ValueError).
Proof.
  unfold main_elect_current. apply behaves_bind.
  { eapply behaves_weaken; [apply behaves_tags_for_product|done|].
    by intros e ->. }
  intros local. destruct (decide (server ∩ local = ∅)) as [|Hne];
    [apply behaves_ret|].
  apply behaves_bind.
  { apply behaves_lift. intros e He.
    apply py_max_error in He as (t & _ & Ht); [|by rewrite set_iter_nil].
    unfold tag_date in Ht.
    destruct (RepositoryManager.tag_dates rm !! t); [done|].
    by injection Ht as <-. }
  intros current_tag. apply behaves_bind; [by apply behaves_emit|].
  intros _. eapply behaves_weaken; [apply behaves_fan_out|done|].
  by intros e (? & ? & ->).
Qed.

End engine.

(** ** The install loop *)

Section behaves_starts.
Import StackManager.

Lemma starts_bind_l {A B} (m : M state A) (k : A → M state B) ok err argv :
  starts m argv → (∀ a, behaves (k a) ok err) → starts (m ≫= k) argv.
Proof.
  intros Hm Hk s. unfold mbind, M_bind.
  destruct (Hm s) as (d & Hd & Hin).
  destruct (m s) as [[e|a] s1]; simpl in *; [by exists d|].
  destruct (Hk a s1) as [(d' & Hd' & _) _].
  exists (d ++ d'). rewrite Hd', Hd, app_assoc. split; [done|]. set_solver.
Qed.

Lemma starts_after_emit (m : M state unit) e argv :
  starts m argv → starts (emit e ;; m) argv.
Proof.
  intros Hm s. unfold mbind, M_bind; simpl.
  destruct (Hm {| history := history s ++ [e]; self := self s |})
    as (d & Hd & Hin).
  exists (e :: d). rewrite Hd; simpl. rewrite <- app_assoc.
  split; [done|]. set_solver.
Qed.

Lemma starts_except (body handler : M state unit) ok err argv :
  starts body argv → behaves handler ok err →
  starts (except_CalledProcessError body handler) argv.
Proof.
  intros Hb Hh s. unfold except_CalledProcessError.
  destruct (Hb s) as (d & Hd & Hin).
  destruct (body s) as [[e|[]] s1]; simpl in *; [|by exists d].
  destruct e; try by exists d.
  destruct (Hh s1) as [(d' & Hd' & _) _].
  exists (d ++ d'). rewrite Hd', Hd, app_assoc. split; [done|]. set_solver.
Qed.

End behaves_starts.

Section install_loop.
Context `{IterOrder} `{Env}.
Import StackManager.

Lemma starts_check_output argv : starts (_check_output argv) argv.
Proof.
  intros s. rewrite run_check_output.
  destruct (run_process (history s) argv) as [rc out].
  destruct (rc =? 0); simpl; eexists; (split; [done|]); set_solver.
Qed.

(** A round of the install loop always starts the installer for its tag. *)
Lemma starts_main_install_tag rm product tag :
  starts (main_install_tag rm product tag) (install_argv product tag).
Proof.
  unfold main_install_tag. apply starts_after_emit.
  eapply starts_except; [|by apply (behaves_emit _ (λ _, True) (λ _, True))].
  unfold main_install_block.
  eapply starts_bind_l; [|intros _; apply behaves_main_declare].
  unfold distrib_install.
  eapply (starts_bind_l _ _ quiet (λ e, e = ValueError ∨ process_error e)).
  - apply starts_check_output.
  - intros output. apply behaves_bind; [by apply behaves_emit|].
    intros _. apply behaves_refresh_products.
Qed.

Lemma install_loop_attempts rm product (candidates : list string) s s' :
  for_each candidates (main_install_tag rm product) s = (inr tt, s') →
  ∃ d, history s' = history s ++ d ∧
       ∀ t, t ∈ candidates → Exec (install_argv product t) ∈ d.
Proof.
  revert s. induction candidates as [|t l IH]; intros s; simpl.
  - intros [= <-]. exists []. rewrite app_nil_r. split; [done|]. set_solver.
  - unfold mbind, M_bind.
    destruct (starts_main_install_tag rm product t s) as (d & Hd & Hin).
    destruct (main_install_tag rm product t s) as [[e|[]] s1]; [done|].
    intros (d' & Hd' & Hall)%IH. simpl in Hd.
    exists (d ++ d'). rewrite Hd', Hd, app_assoc. split; [done|].
    intros u [->|Hu]%elem_of_cons; [set_solver|].
    specialize (Hall u Hu). set_solver.
Qed.

Lemma run_main_product rm product server installed s :
  RepositoryManager.tags_for_product rm product = inr server →
  ProductTracker.tags_for_product (local_tracker s) product = inr installed →
  main_product rm product s
  = match for_each (set_iter (server ∖ installed)) (main_install_tag rm product)
            (after s [Print ("Considering " +:+ product)]) with
    | (inr _, s1) => main_elect_current rm product server s1
    | (inl e, s1) => (inl e, s1)
    end.
Proof.
  intros Hserver Hinstalled. unfold main_product.
  erewrite run_bind_inr by apply run_emit.
  erewrite run_bind_inr by (unfold lift; rewrite Hserver; done).
  unfold main_install_phase. rewrite run_bind_assoc.
  erewrite run_bind_inr
    by (rewrite run_tags_for_product; unfold local_tracker, after; simpl;
        fold (local_tracker s); rewrite Hinstalled; done).
  unfold mbind, M_bind.
  by destruct (for_each _ _ _) as [[e|[]] s1].
Qed.

(** C1. In the round of a product, every installer the engine starts is
    for that product and a tag the server has and the local stack lacks;
    unless the round is cut short by an inventory line it cannot read
    ([ValueError]), the installer is started for each such tag; and when
    the local stack has every tag of the server, no installer is
    started. *)
Theorem install_attempts_are_candidates (rm : RepositoryManager.t)
    (product : string) (server installed : gset string)
    (s : StackManager.state) :
  RepositoryManager.tags_for_product rm product = inr server →
  ProductTracker.tags_for_product (local_tracker s) product = inr installed →
  ∃ new,
    history (main_product rm product s).2 = history s ++ new ∧
    (∀ e, e ∈ new → is_distrib e = true →
          ∃ t, t ∈ server ∖ installed ∧ e = Exec (install_argv product t)) ∧
    ((main_product rm product s).1 ≠ inl ValueError →
     ∀ t, t ∈ server ∖ installed → Exec (install_argv product t) ∈ new) ∧
    (server ⊆ installed → ∀ e, e ∈ new → is_distrib e = false).
Proof.
  intros Hserver Hinstalled.
  rewrite (run_main_product rm product server installed) by done.
  set (s0 := after s [Print ("Considering " +:+ product)]).
  set (candidates := server ∖ installed).
  destruct (behaves_install_loop rm product (set_iter candidates) s0)
    as [(d1 & Hd1 & Hok1) Herr1].
  pose proof (install_loop_attempts rm product (set_iter candidates) s0) as Hall.
  destruct (for_each (set_iter candidates) (main_install_tag rm product) s0)
    as [[e1|[]] s1]; simpl in *.
  - assert (Hnew : ∀ e, e ∈ Print ("Considering " +:+ product) :: d1 →
              is_distrib e = true →
              ∃ t, t ∈ candidates ∧ e = Exec (install_argv product t)).
    { intros e [->|He]%elem_of_cons Hdis; [done|].
      rewrite Forall_forall in Hok1.
      destruct (Hok1 e He) as [Hq|(t & Ht & ->)]; [congruence|].
      exists t. split; [by apply elem_of_set_iter|done]. }
    exists (Print ("Considering " +:+ product) :: d1).
    split; [by rewrite Hd1, <- app_assoc|]. split; [done|]. split.
    + intros Hne. destruct Hne. f_equal. by apply Herr1.
    + intros Hsub e He. destruct (is_distrib e) eqn:Hdis; [|done].
      destruct (Hnew e He Hdis) as (t & Ht & _). set_solver.
  - destruct (behaves_main_elect_current rm product server s1)
      as [(d2 & Hd2 & Hok2) Herr2].
    destruct (Hall s1 eq_refl) as (d1' & Hd1' & Hall').
    assert (d1' = d1) as -> by (rewrite Hd1 in Hd1'; by simplify_list_eq).
    assert (Hnew : ∀ e, e ∈ Print ("Considering " +:+ product) :: d1 ++ d2 →
              is_distrib e = true →
              ∃ t, t ∈ candidates ∧ e = Exec (install_argv product t)).
    { intros e [->|[He|He]%elem_of_app]%elem_of_cons Hdis; [done| |].
      - rewrite Forall_forall in Hok1.
        destruct (Hok1 e He) as [Hq|(t & Ht & ->)]; [congruence|].
        exists t. split; [by apply elem_of_set_iter|done].
      - rewrite Forall_forall in Hok2. specialize (Hok2 e He).
        unfold quiet in Hok2. congruence. }
    exists (Print ("Considering " +:+ product) :: d1 ++ d2).
    split; [by rewrite Hd2, Hd1, <- !app_assoc|]. split; [done|]. split.
    + intros _ t Ht. apply elem_of_cons. right. apply elem_of_app. left.
      apply Hall'. by apply elem_of_set_iter.
    + intros Hsub e He. destruct (is_distrib e) eqn:Hdis; [|done].
      destruct (Hnew e He Hdis) as (t & Ht & _). set_solver.
Qed.

End install_loop.

(** ** A failed install *)

Section failed_install.
Context `{IterOrder} `{Env}.
Import StackManager.

Lemma run_main_install_tag_failed rm product tag s rc out :
  run_process
    (history s ++ [Print ("  Installing " +:+ product +:+ " tagged " +:+ tag)])
    (install_argv product tag) = (rc, out) →
  rc ≠ 0 →
  main_install_tag rm product tag s
  = (inr tt, install_failed s product tag out).
Proof.
  intros Hrun Hrc. unfold main_install_tag.
  erewrite run_bind_inr by apply run_emit.
  unfold except_CalledProcessError, main_install_block, distrib_install.
  erewrite run_bind_inl; cycle 1.
  { erewrite run_bind_inl; [done|].
    unfold _run_cmd. rewrite run_check_output.
    change (["eups"; "--nolocks"; "distrib"]
              ++ distrib_install_args product None (Some tag))
      with (install_argv product tag).
    unfold after at 1; simpl. rewrite Hrun.
    apply Z.eqb_neq in Hrc. rewrite Hrc. done. }
  rewrite run_emit, !after_after. done.
Qed.

(** C3. When the installer fails for a candidate tag, the round of that
    tag ends normally: the failure is printed and the local catalogue is
    as it was.  The run then goes on exactly as the loops prescribe: the
    remaining candidates of the product, the election for the product,
    the remaining products. *)
Theorem failed_install_is_skipped (rm : RepositoryManager.t)
    (product : string) (products : list string)
    (server installed : gset string) (pre rest : list string) (tag : string)
    (s s1 : StackManager.state) (rc : Z) (out : string) :
  RepositoryManager.tags_for_product rm product = inr server →
  ProductTracker.tags_for_product (local_tracker s) product = inr installed →
  set_iter (server ∖ installed) = pre ++ tag :: rest →
  for_each pre (main_install_tag rm product)
           (after s [Print ("Considering " +:+ product)]) = (inr tt, s1) →
  run_process
    (history s1 ++ [Print ("  Installing " +:+ product +:+ " tagged " +:+ tag)])
    (install_argv product tag) = (rc, out) →
  rc ≠ 0 →
  main_install_tag rm product tag s1
  = (inr tt, install_failed s1 product tag out) ∧
  main_loop rm (product :: products) s
  = (for_each rest (main_install_tag rm product) ;;
     main_elect_current rm product server ;;
     main_loop rm products) (install_failed s1 product tag out).
Proof.
  intros Hserver Hinstalled Hiter Hpre Hrun Hrc.
  pose proof (run_main_install_tag_failed rm product tag s1 rc out Hrun Hrc)
    as Hfail.
  split; [done|].
  unfold main_loop; simpl. fold (main_loop rm products).
  unfold mbind at 1, M_bind at 1.
  rewrite (run_main_product rm product server installed) by done.
  rewrite Hiter, for_each_app.
  erewrite run_bind_inr by done. simpl.
  erewrite run_bind_inr by done.
  unfold mbind, M_bind.
  by destruct (for_each rest _ _) as [[e|[]] s3].
Qed.

(** No round of the install loop ends in a process error: those of the
    installer are among the ones caught. *)
Lemma main_install_tag_no_process_error rm product tag s rc cmd :
  (main_install_tag rm product tag s).1 ≠ inl (CalledProcessError rc cmd).
Proof.
  intros Herr.
  by destruct (behaves_main_install_tag rm product tag s) as [_ He];
    specialize (He _ Herr).
Qed.

End failed_install.

(** ** The fan-out of a tag *)

Lemma bind_inr_inv {σ A B} (m : M σ A) (k : A → M σ B) s b s' :
  (m ≫= k) s = (inr b, s') → ∃ a s1, m s = (inr a, s1) ∧ k a s1 = (inr b, s').
Proof.
  unfold mbind, M_bind. destruct (m s) as [[e|a] s1]; [done|].
  intros Hk. by exists a, s1.
Qed.

Section fan_out.
Context `{IterOrder} `{Env}.
Import StackManager.

Lemma has_version_true tr product version :
  ProductTracker.has_version tr product version = true ↔
  ∃ p, ProductTracker._products tr !! product = Some p
       ∧ is_Some (Product._versions p !! version).
Proof.
  unfold ProductTracker.has_version.
  destruct (ProductTracker._products tr !! product) as [p|]; [|naive_solver].
  rewrite bool_decide_eq_true. unfold Product.versions.
  rewrite elem_of_dict_keys. naive_solver.
Qed.

(** Tagging a version the tracker has adds no version. *)
Lemma has_version_inserted tr product version tag product' version' :
  ProductTracker.has_version tr product version = true →
  ProductTracker.has_version (inserted tr product version tag)
                             product' version' = true →
  ProductTracker.has_version tr product' version' = true.
Proof.
  rewrite !has_version_true. intros (p & Hp & Hv). unfold inserted; simpl.
  rewrite Hp; simpl. destruct (decide (product = product')) as [<-|Hne].
  - rewrite lookup_insert_eq. intros (p' & [= <-] & Hv'). simpl in Hv'.
    exists p. split; [done|].
    destruct (decide (version = version')) as [<-|Hne]; [done|].
    by rewrite lookup_insert_ne in Hv'.
  - by rewrite lookup_insert_ne.
Qed.

Lemma elem_of_products_for_tag tr tag product version :
  (product, version) ∈ ProductTracker.products_for_tag tr tag ↔
  ∃ key p ts, ProductTracker._products tr !! key = Some p
              ∧ Product.name p = product
              ∧ Product._versions p !! version = Some ts ∧ tag ∈ ts.
Proof.
  unfold ProductTracker.products_for_tag.
  rewrite list_elem_of_In, in_flat_map. setoid_rewrite <- list_elem_of_In.
  split.
  - intros (p & [key Hp]%elem_of_dict_values & Hin).
    apply list_elem_of_fmap in Hin as (v & [= -> ->] & Hv).
    unfold Product.versions in Hv.
    apply list_elem_of_fmap in Hv as ([v' ts] & -> & Hin). simpl.
    apply list_elem_of_In, filter_In in Hin as [Hin Htag].
    apply list_elem_of_In, elem_of_dict_iter in Hin.
    apply bool_decide_eq_true in Htag. by exists key, p, ts.
  - intros (key & p & ts & Hp & <- & Hv & Htag). exists p. split.
    + apply elem_of_dict_values. by exists key.
    + apply list_elem_of_fmap. exists version. split; [done|].
      unfold Product.versions. apply list_elem_of_fmap.
      exists (version, ts). split; [done|].
      apply list_elem_of_In, filter_In. split.
      * by apply list_elem_of_In, elem_of_dict_iter.
      * by apply bool_decide_eq_true.
Qed.

Lemma run_apply_tag product version tagname s :
  apply_tag product version tagname s
  = if ProductTracker.has_version (local_tracker s) product version then
      match _check_output (declare_argv tagname product version) s with
      | (inr _, s1) =>
          (inr tt, with_tracker s1 (inserted (local_tracker s1)
                                             product version (Some tagname)))
      | (inl e, s1) => (inl e, s1)
      end
    else (inr tt, s).
Proof.
  unfold apply_tag, tracker, mbind at 1 2, M_bind at 1 2, get; simpl.
  fold (local_tracker s).
  destruct (ProductTracker.has_version (local_tracker s) product version);
    [|done].
  unfold mbind, M_bind, _run_cmd.
  change (["eups"; "--nolocks"; "declare"] ++ ["-t"; tagname; product; version])
    with (declare_argv tagname product version).
  destruct (_check_output (declare_argv tagname product version) s)
    as [[e|out] s1]; [done|].
  by rewrite run_tracker_insert.
Qed.

(** A call of [apply_tag] that returns: either the local stack lacks the
    version and nothing happened, or the declare process was started. *)
Lemma apply_tag_inr product version tagname s s' :
  apply_tag product version tagname s = (inr tt, s') →
  (ProductTracker.has_version (local_tracker s) product version = false
   ∧ s' = s) ∨
  (ProductTracker.has_version (local_tracker s) product version = true
   ∧ history s' = history s ++ [Exec (declare_argv tagname product version)]
   ∧ local_tracker s'
     = inserted (local_tracker s) product version (Some tagname)).
Proof.
  rewrite run_apply_tag.
  destruct (ProductTracker.has_version (local_tracker s) product version);
    [|intros [= <-]; by left].
  rewrite run_check_output.
  destruct (run_process (history s) (declare_argv tagname product version))
    as [rc out].
  destruct (rc =? 0); [|done]. intros [= <-]. right. done.
Qed.

Lemma fan_out_declares (pairs : list (string * string)) tagname s s' :
  for_each pairs (λ pv, apply_tag pv.1 pv.2 tagname) s = (inr tt, s') →
  (∀ product version,
      ProductTracker.has_version (local_tracker s') product version = true →
      ProductTracker.has_version (local_tracker s) product version = true) ∧
  ∃ d, history s' = history s ++ d ∧
       ∀ product version, (product, version) ∈ pairs →
         ProductTracker.has_version (local_tracker s') product version = true →
         Exec (declare_argv tagname product version) ∈ d.
Proof.
  revert s. induction pairs as [|[p v] l IH]; intros s; simpl.
  - intros [= <-]. split; [done|]. exists []. rewrite app_nil_r.
    split; [done|]. set_solver.
  - intros (a & s1 & Hstep & Hrest)%bind_inr_inv. destruct a.
    destruct (IH s1 Hrest) as (Hback & d & Hd & Hall).
    apply apply_tag_inr in Hstep as [[Hno ->]|(Hyes & Hh & Htr)].
    + split; [done|]. exists d. split; [done|].
      intros p' v' [[= -> ->]|Hin]%elem_of_cons Hhas; [|by apply Hall].
      apply Hback in Hhas. congruence.
    + split.
      * intros p' v' Hhas%Hback. rewrite Htr in Hhas.
        by eapply has_version_inserted.
      * exists (Exec (declare_argv tagname p v) :: d).
        rewrite Hd, Hh, <- app_assoc. split; [done|].
        intros p' v' [[= -> ->]|Hin]%elem_of_cons Hhas; [set_solver|].
        specialize (Hall p' v' Hin Hhas). set_solver.
Qed.

(** C4, as the code has it.  When the body of the [try] for a tag runs
    to its end (the installer, the inventory, the list of declared tags
    and every declare exit with status 0), a declare of the tag has been
    started for every (product, version) the remote catalogue lists
    under the tag and the local stack contains. *)
Theorem fan_out_when_declares_succeed (rm : RepositoryManager.t)
    (product tag : string) (s s' : StackManager.state) :
  main_install_block rm product tag s = (inr tt, s') →
  ∃ new,
    history s' = history s ++ new ∧
    ∀ sub_product version,
      (sub_product, version) ∈ RepositoryManager.products_for_tag rm tag →
      ProductTracker.has_version (local_tracker s') sub_product version = true →
      Exec (declare_argv tag sub_product version) ∈ new.
Proof.
  unfold main_install_block.
  intros ([] & s1 & Hinstall & Hdeclare)%bind_inr_inv.
  destruct (behaves_distrib_install product tag s) as [(d1 & Hd1 & _) _].
  rewrite Hinstall in Hd1; simpl in Hd1.
  unfold main_declare in Hdeclare.
  apply bind_inr_inv in Hdeclare as (declared & s2 & Htags & Hdeclare).
  destruct (behaves_tags s1) as [(d2 & Hd2 & _) _].
  rewrite Htags in Hd2; simpl in Hd2.
  apply bind_inr_inv in Hdeclare as ([] & s3 & Hreg & Hdeclare).
  assert (∃ d3, history s3 = history s2 ++ d3) as [d3 Hd3].
  { destruct (bool_decide (tag ∈ declared)).
    - injection Hreg as <-. exists []. by rewrite app_nil_r.
    - apply bind_inr_inv in Hreg as ([] & sr & [= <-] & [= <-]).
      eexists. simpl. by rewrite <- app_assoc. }
  apply bind_inr_inv in Hdeclare as ([] & s4 & [= <-] & Hfan).
  apply fan_out_declares in Hfan as (_ & d4 & Hd4 & Hall).
  exists (d1 ++ d2 ++ d3 ++ [Print ("  Applying tag " +:+ tag)] ++ d4).
  split.
  - rewrite Hd4. simpl. rewrite Hd3, Hd2, Hd1. by rewrite <- !app_assoc.
  - intros sub_product version Hin Hhas.
    specialize (Hall sub_product version Hin Hhas). set_solver.
Qed.

End fan_out.

(** ** The catalogues the engine works on *)

Lemma foldl_exn_inl {A B} (f : B → A → exn + A) (l : list B) (e : exn) :
  foldl (λ acc x, a ← acc; f x a) (inl e) l = inl e.
Proof. induction l as [|x l IH]; simpl; [done|apply IH]. Qed.

Lemma foldl_exn_inv {A B} (f : B → A → exn + A) (I : A → Prop)
    (l : list B) (a0 a' : A) :
  I a0 → (∀ x a a1, I a → f x a = inr a1 → I a1) →
  foldl (λ acc x, a ← acc; f x a) (inr a0) l = inr a' → I a'.
Proof.
  intros H0 Hstep. revert a0 H0. induction l as [|x l IH]; intros a0 H0; simpl.
  - by intros [= <-].
  - destruct (f x a0) as [e|a1] eqn:Hf; simpl.
    + by rewrite foldl_exn_inl.
    + apply IH. by eapply Hstep.
Qed.

Lemma inserted_lookup tr product version tag n p v ts t :
  ProductTracker._products (inserted tr product version tag) !! n = Some p →
  Product._versions p !! v = Some ts → t ∈ ts →
  tag = Some t ∨
  ∃ p0 ts0, ProductTracker._products tr !! n = Some p0
            ∧ Product._versions p0 !! v = Some ts0 ∧ t ∈ ts0.
Proof.
  unfold inserted; simpl. destruct (decide (product = n)) as [->|Hne].
  - rewrite lookup_insert_eq. intros [= <-]; simpl.
    destruct (decide (version = v)) as [->|Hnv].
    + rewrite lookup_insert_eq. intros [= <-] Ht.
      destruct tag as [t'|]; simpl in Ht.
      * destruct (Py.truthy t').
        -- apply elem_of_union in Ht as [->%elem_of_singleton|Ht]; [by left|].
           right. destruct (ProductTracker._products tr !! n) as [p0|]; simpl in *.
           ++ destruct (Product._versions p0 !! v) as [ts0|] eqn:Hv; [|set_solver].
              by exists p0, ts0.
           ++ rewrite lookup_empty in Ht. set_solver.
        -- right. destruct (ProductTracker._products tr !! n) as [p0|]; simpl in *.
           ++ destruct (Product._versions p0 !! v) as [ts0|] eqn:Hv; [|set_solver].
              by exists p0, ts0.
           ++ rewrite lookup_empty in Ht. set_solver.
      * right. destruct (ProductTracker._products tr !! n) as [p0|]; simpl in *.
        -- destruct (Product._versions p0 !! v) as [ts0|] eqn:Hv; [|set_solver].
           by exists p0, ts0.
        -- rewrite lookup_empty in Ht. set_solver.
    + rewrite lookup_insert_ne by done. intros Hv Ht. right.
      destruct (ProductTracker._products tr !! n) as [p0|]; simpl in *.
      * by exists p0, ts.
      * by rewrite lookup_empty in Hv.
  - rewrite lookup_insert_ne by done. intros Hp Hv Ht. right. by exists p, ts.
Qed.

Section remote.
Import RepositoryManager.

Lemma read_line_ok tag line rm rm' :
  is_Some (tag_dates rm !! tag) → remote_ok rm →
  read_line tag line rm = inr rm' →
  remote_ok rm' ∧ tag_dates rm' = tag_dates rm.
Proof.
  intros Htag [Hv Hd]. unfold read_line.
  destruct (Py.contains _ line); [by intros [= <-]|].
  destruct (Py.strip line) as [|c ?]; [done|].
  destruct (Ascii.eqb c "#"); [by intros [= <-]|].
  destruct (Py.split_ws line) as [|product [|flavor [|version [|? ?]]]];
    try done.
  rewrite insert_inserted. simpl. intros [= <-]. split; [split|done]; simpl.
  - by apply has_versions_inserted.
  - intros n p v ts t Hp Hvs Ht.
    change (ProductTracker._products
              (inserted (_product_tracker rm) product version (Some tag)) !! n
            = Some p) in Hp.
    destruct (inserted_lookup _ _ _ _ _ _ _ _ _ Hp Hvs Ht)
      as [[= ->]|(p0 & ts0 & ? & ? & ?)]; [done|by eapply Hd].
Qed.

Lemma read_listing_ok pattern el rm rm' :
  remote_ok rm → read_listing pattern el rm = inr rm' → remote_ok rm'.
Proof.
  intros [Hv Hd]. unfold read_listing.
  destruct (_ && _); [|by intros [= <-]].
  set (tag := Py.drop_last 5 (text el)).
  set (rm0 := {| _product_tracker := _product_tracker rm;
                 tag_dates := <[tag := last_modified el]> (tag_dates rm) |}).
  intros Hfold.
  apply (foldl_exn_inv (read_line tag)
           (λ r, remote_ok r ∧ tag_dates r = tag_dates rm0)) in Hfold.
  - by destruct Hfold.
  - split; [split|done]; [done|].
    intros n p v ts t Hp Hvs Ht. simpl.
    destruct (decide (tag = t)) as [->|Hne].
    + rewrite lookup_insert_eq. by eexists.
    + rewrite lookup_insert_ne by done. by eapply Hd.
  - intros line r r1 [Hok Hdates] Hline.
    apply read_line_ok in Hline as [Hok1 Hdates1]; [| |done].
    + split; [done|congruence].
    + rewrite Hdates. simpl. rewrite lookup_insert_eq. by eexists.
Qed.

(** A catalogue read from the server has a date for each of its tags,
    and a version for each of its products. *)
Lemma init_remote_ok pattern index rm :
  __init__ pattern index = inr rm → remote_ok rm.
Proof.
  apply (foldl_exn_inv (read_listing pattern) remote_ok).
  - split; [apply has_versions_init|].
    intros n p v ts t Hp. simpl in Hp. by rewrite lookup_empty in Hp.
  - intros el r r1 Hok Hr. by eapply read_listing_ok.
Qed.

Lemma init_server_tags_dated `{IterOrder} pattern index rm product server :
  __init__ pattern index = inr rm →
  tags_for_product rm product = inr server →
  ∀ t, t ∈ server → is_Some (tag_dates rm !! t).
Proof.
  intros [Hv Hd]%init_remote_ok Hserver t Ht.
  destruct (tags_for_product_spec (_product_tracker rm) product Hv)
    as (s & Hs & Hspec).
  unfold tags_for_product in Hserver. rewrite Hs in Hserver.
  injection Hserver as <-. apply Hspec in Ht as (p & v & ts & ? & ? & ?).
  by eapply Hd.
Qed.

End remote.

Section local.
Import StackManager.

Lemma keeps_ret I {A} (a : A) : keeps I (mret a).
Proof. by intros s. Qed.

Lemma keeps_raise I {A} e : keeps I (@raise state A e).
Proof. by intros s. Qed.

Lemma keeps_lift I {A} (r : exn + A) : keeps I (@lift state A r).
Proof. by intros s. Qed.

Lemma keeps_emit I e : keeps I (emit e).
Proof. by intros s. Qed.

Lemma keeps_bind I {A B} (m : M state A) (k : A → M state B) :
  keeps I m → (∀ a, keeps I (k a)) → keeps I (m ≫= k).
Proof.
  intros Hm Hk s Hs. unfold mbind, M_bind. specialize (Hm s Hs).
  destruct (m s) as [[e|a] s1]; [done|]. by apply Hk.
Qed.

Lemma keeps_for_each I {A} (l : list A) (f : A → M state unit) :
  (∀ x, keeps I (f x)) → keeps I (for_each l f).
Proof.
  intros Hf. induction l as [|x l IH]; simpl; [apply keeps_ret|].
  apply keeps_bind; [apply Hf|by intros _].
Qed.

Lemma keeps_except I (body handler : M state unit) :
  keeps I body → keeps I handler →
  keeps I (except_CalledProcessError body handler).
Proof.
  intros Hb Hh s Hs. unfold except_CalledProcessError. specialize (Hb s Hs).
  destruct (body s) as [[e|[]] s1]; [|done].
  destruct e; try done. by apply Hh.
Qed.

Lemma keeps_tracker_insert product version tag :
  keeps has_versions (tracker_insert product version tag).
Proof.
  intros s Hs. rewrite run_tracker_insert. simpl.
  by apply has_versions_inserted.
Qed.

Context `{IterOrder} `{Env}.

Lemma keeps_check_output I argv : keeps I (_check_output argv).
Proof.
  intros s Hs. rewrite run_check_output.
  destruct (run_process (history s) argv) as [rc out]. by destruct (rc =? 0).
Qed.

Lemma keeps_refresh_line line : keeps has_versions (refresh_line line).
Proof.
  unfold refresh_line. destruct (decide (line = "")); [apply keeps_ret|].
  destruct (Py.split "|" line) as [|product [|version [|tags [|? ?]]]];
    try apply keeps_raise.
  apply keeps_bind.
  - destruct (decide (tags = ""));
      [apply keeps_tracker_insert|apply keeps_ret].
  - intros _. apply keeps_for_each. intros tag.
    destruct (Py.contains tag "setup");
      [apply keeps_ret|apply keeps_tracker_insert].
Qed.

(** Whatever the inventory command prints, the catalogue rebuilt from it
    has a version for each product. *)
Lemma refresh_has_versions s :
  has_versions (local_tracker (_refresh_products s).2).
Proof.
  unfold _refresh_products. unfold mbind at 1, M_bind at 1; simpl.
  set (s0 := {| history := history s; self := _ |}).
  assert (Hinit : has_versions (local_tracker s0)) by apply has_versions_init.
  revert Hinit. generalize s0. apply keeps_bind.
  - apply keeps_check_output.
  - intros output. apply keeps_for_each. apply keeps_refresh_line.
Qed.

Lemma keeps_refresh_products : keeps has_versions _refresh_products.
Proof. intros s _. apply refresh_has_versions. Qed.

Lemma keeps_apply_tag product version tagname :
  keeps has_versions (apply_tag product version tagname).
Proof.
  intros s Hs. rewrite run_apply_tag.
  destruct (ProductTracker.has_version _ _ _); [|done].
  pose proof (keeps_check_output has_versions
                (declare_argv tagname product version) s Hs) as Hc.
  destruct (_check_output _ s) as [[e|out] s1]; [done|]. simpl in *.
  by apply has_versions_inserted.
Qed.

Lemma keeps_main_install_tag rm product tag :
  keeps has_versions (main_install_tag rm product tag).
Proof.
  unfold main_install_tag. apply keeps_bind; [apply keeps_emit|]. intros _.
  apply keeps_except; [|apply keeps_emit].
  unfold main_install_block. apply keeps_bind.
  - unfold distrib_install. apply keeps_bind; [apply keeps_check_output|].
    intros output. apply keeps_bind; [apply keeps_emit|].
    intros _. apply keeps_refresh_products.
  - intros _. unfold main_declare. apply keeps_bind.
    { unfold tags. apply keeps_bind; [apply keeps_check_output|].
      intros output. apply keeps_ret. }
    intros declared. apply keeps_bind.
    { destruct (bool_decide _); [apply keeps_ret|].
      apply keeps_bind; [apply keeps_emit|]. intros _. apply keeps_emit. }
    intros _. apply keeps_bind; [apply keeps_emit|]. intros _.
    apply keeps_for_each. intros pv. apply keeps_apply_tag.
Qed.

Lemma keeps_main_product rm product :
  keeps has_versions (main_product rm product).
Proof.
  unfold main_product. apply keeps_bind; [apply keeps_emit|]. intros _.
  apply keeps_bind; [apply keeps_lift|]. intros server.
  apply keeps_bind.
  - unfold main_install_phase. apply keeps_bind.
    { unfold tags_for_product, tracker.
      apply keeps_bind; [|intros tr; apply keeps_lift].
      apply keeps_bind; [by intros s|intros s; apply keeps_ret]. }
    intros installed. apply keeps_for_each. intros tag.
    apply keeps_main_install_tag.
  - intros _. unfold main_elect_current. apply keeps_bind.
    { unfold tags_for_product, tracker.
      apply keeps_bind; [|intros tr; apply keeps_lift].
      apply keeps_bind; [by intros s|intros s; apply keeps_ret]. }
    intros local. destruct (decide _); [apply keeps_ret|].
    apply keeps_bind; [apply keeps_lift|]. intros current_tag.
    apply keeps_bind; [apply keeps_emit|]. intros _.
    apply keeps_for_each. intros pv. apply keeps_apply_tag.
Qed.

(** Through the whole loop the local catalogue can be asked for the tags
    of any product. *)
Lemma main_loop_local_tags rm products s product :
  has_versions (local_tracker s) →
  ∃ tags, ProductTracker.tags_for_product
            (local_tracker (main_loop rm products s).2) product = inr tags.
Proof.
  intros Hs.
  assert (Hk : keeps has_versions (main_loop rm products)).
  { apply keeps_for_each. intros p. apply keeps_main_product. }
  destruct (tags_for_product_spec _ product (Hk s Hs)) as (tags & Ht & _).
  by exists tags.
Qed.

End local.

(** ** The statements on concrete runs *)

Lemma install_attempts_are_candidates_witness :
  ∃ new,
    StackManager.history
      (@main_product trie_order t2_env abc_rm "P" fresh_state).2
    = StackManager.history fresh_state ++ new ∧
    (∀ e, e ∈ new → is_distrib e = true →
          ∃ t, t ∈ ({[ "A"; "B"; "C" ]} : gset string) ∖ ∅
               ∧ e = Exec (install_argv "P" t)) ∧
    ((@main_product trie_order t2_env abc_rm "P" fresh_state).1 ≠ inl ValueError →
     ∀ t, t ∈ ({[ "A"; "B"; "C" ]} : gset string) ∖ ∅ →
          Exec (install_argv "P" t) ∈ new) ∧
    (({[ "A"; "B"; "C" ]} : gset string) ⊆ ∅ →
     ∀ e, e ∈ new → is_distrib e = false).
Proof.
  apply (@install_attempts_are_candidates trie_order t2_env abc_rm "P"
           {[ "A"; "B"; "C" ]} ∅ fresh_state).
  - vm_compute. reflexivity.
  - vm_compute. reflexivity.
Defined.

Lemma elects_latest_available_witness :
  ∃ current_tag d,
    current_tag ∈ ({[ "A"; "B"; "C" ]} : gset string) ∩ {[ "A"; "B"; "C" ]} ∧
    RepositoryManager.tag_dates abc_rm !! current_tag = Some d ∧
    (∀ t d', t ∈ ({[ "A"; "B"; "C" ]} : gset string) ∩ {[ "A"; "B"; "C" ]} →
             RepositoryManager.tag_dates abc_rm !! t = Some d' → d' ≤ d) ∧
    @main_current_tag trie_order abc_rm ({[ "A"; "B"; "C" ]} ∩ {[ "A"; "B"; "C" ]})
    = inr current_tag ∧
    @main_elect_current trie_order abc_env abc_rm "P" {[ "A"; "B"; "C" ]} abc_state
    = @mark_current trie_order abc_env abc_rm "P" current_tag abc_state.
Proof.
  apply (@elects_latest_available trie_order abc_env abc_rm "P"
           {[ "A"; "B"; "C" ]} {[ "A"; "B"; "C" ]} abc_state).
  - intros t Ht.
    assert (t = "A" ∨ t = "B" ∨ t = "C") as [-> | [-> | ->]] by set_solver;
      vm_compute; by eexists.
  - vm_compute. reflexivity.
  - apply (non_empty_inhabited_L "B"). set_solver.
Defined.

(** The example of the specification, however the sets are walked: of
    A (January), B (March) and C (February), B is elected. *)
Lemma abc_elects_B `{IterOrder} :
  main_current_tag abc_rm {[ "A"; "B"; "C" ]} = inr "B".
Proof.
  destruct (main_current_tag_spec abc_rm {[ "A"; "B"; "C" ]})
    as (t & d & Ht & Hfm).
  - apply (non_empty_inhabited_L "B"). set_solver.
  - intros t Ht.
    assert (t = "A" ∨ t = "B" ∨ t = "C") as [-> | [-> | ->]] by set_solver;
      vm_compute; by eexists.
  - rewrite Ht. f_equal.
    pose proof (first_maximal_elem _ _ _ _ Hfm) as Hin.
    apply elem_of_set_iter in Hin.
    assert (HB : 1583020800 ≤ d).
    { eapply (first_maximal_max _ _ _ _ "B"); [done| |by vm_compute].
      apply elem_of_set_iter. set_solver. }
    destruct Hfm as [Hd _].
    assert (t = "A" ∨ t = "B" ∨ t = "C") as [-> | [-> | ->]] by set_solver;
      [|done|]; vm_compute in Hd; injection Hd as <-; lia.
Qed.

Lemma failed_install_is_skipped_witness :
  @main_install_tag trie_order t2_env abc_rm "P" "A" t2_before_failure
  = (inr tt, install_failed t2_before_failure "P" "A" "no such release") ∧
  @main_loop trie_order t2_env abc_rm ["P"] fresh_state
  = (@for_each _ _ ["B"] (@main_install_tag trie_order t2_env abc_rm "P") ;;
     @main_elect_current trie_order t2_env abc_rm "P" {[ "A"; "B"; "C" ]} ;;
     @main_loop trie_order t2_env abc_rm [])
      (install_failed t2_before_failure "P" "A" "no such release").
Proof.
  apply (@failed_install_is_skipped trie_order t2_env abc_rm "P" []
           {[ "A"; "B"; "C" ]} ∅ ["C"] ["B"] "A" fresh_state
           t2_before_failure 1 "no such release").
  - vm_compute. reflexivity.
  - vm_compute. reflexivity.
  - vm_compute. reflexivity.
  - vm_compute. reflexivity.
  - vm_compute. reflexivity.
  - lia.
Defined.

(** The run of that scenario: the installer is started for C, for A (and
    fails) and for B; B is then marked as current. *)
Lemma failed_install_run :
  let s := (@main_loop trie_order t2_env abc_rm ["P"] fresh_state).2 in
  List.filter is_distrib (StackManager.history s)
  = [Exec (install_argv "P" "C"); Exec (install_argv "P" "A");
     Exec (install_argv "P" "B")] ∧
  last (StackManager.history s) = Some (Exec (declare_argv "current" "P" "3.0")).
Proof. vm_compute. done. Qed.

(** C4, refuted as stated.  Release T lists X 1.0 and Y 2.0; the
    installer succeeds and both are on disk; the declare for Y, the first
    pair walked, exits with status 1.  The error ends the [try]: no declare
    is ever started for X. *)
Lemma fan_out_stops_at_failed_declare :
  (@StackManager.distrib_install fan_env "X" None (Some "T") fan_installing).1
  = inr tt ∧
  @RepositoryManager.products_for_tag trie_order fan_rm "T"
  = [("Y", "2.0"); ("X", "1.0")] ∧
  @ProductTracker.has_version trie_order (local_tracker fan_result) "X" "1.0"
  = true ∧
  Exec (declare_argv "T" "Y" "2.0") ∈ StackManager.history fan_result ∧
  Exec (declare_argv "T" "X" "1.0") ∉ StackManager.history fan_result.
Proof.
  split; [by vm_compute|]. split; [by vm_compute|]. split; [by vm_compute|].
  split.
  - apply (bool_decide_unpack _). by vm_compute.
  - apply (bool_decide_unpack _). by vm_compute.
Qed.

Lemma fan_out_when_declares_succeed_witness :
  ∃ new,
    StackManager.history fan_ok_result
    = StackManager.history fresh_state ++ new ∧
    ∀ sub_product version,
      (sub_product, version)
        ∈ @RepositoryManager.products_for_tag trie_order fan_rm "T" →
      @ProductTracker.has_version trie_order (local_tracker fan_ok_result)
        sub_product version = true →
      Exec (declare_argv "T" sub_product version) ∈ new.
Proof.
  apply (@fan_out_when_declares_succeed trie_order fan_ok_env fan_rm "X" "T"
           fresh_state fan_ok_result).
  vm_compute. reflexivity.
Defined.

(** C5, at the input where the code departs from it.  The inventory line
    [afw|1.0|up:w_2020_10] carries the tags "up" and "w_2020_10"; the test
    [tag in ("setup")] is a test for a substring of "setup", so "up" is
    dropped with "setup" and only "w_2020_10" is tracked. *)
Theorem refresh_drops_substrings_of_setup :
  let s := (@StackManager._refresh_products up_env fresh_state).2 in
  Py.split ":" "up:w_2020_10" = ["up"; "w_2020_10"] ∧
  Py.contains "up" "setup" = true ∧
  @ProductTracker.tags_for_product trie_order (local_tracker s) "afw"
  = inr {[ "w_2020_10" ]}.
Proof. vm_compute. done. Qed.

(** The tags the test drops: the sixteen substrings of "setup", not
    "setup" alone. *)
Lemma substrings_of_setup_dropped :
  Forall (λ tag, Py.contains tag "setup" = true)
         [""; "s"; "e"; "t"; "u"; "p"; "se"; "et"; "tu"; "up"; "set"; "etu";
          "tup"; "setu"; "etup"; "setup"] ∧
  Py.contains "w_2020_10" "setup" = false.
Proof. split; [|done]. repeat constructor. Qed.

(** The example of the specification: of [setup:w_2020_10] only
    "w_2020_10" is tracked. *)
Lemma refresh_drops_setup :
  let s := (@StackManager._refresh_products setup_env fresh_state).2 in
  @ProductTracker.tags_for_product trie_order (local_tracker s) "afw"
  = inr {[ "w_2020_10" ]}.
Proof. vm_compute. done. Qed.

(** C6, refuted as stated.  The tags "a" and "b" have the same date; a run
    that walks the set as a, b elects "a", a run that walks it as b, a
    elects "b".  The choice follows the walk, not the names. *)
Lemma tie_not_broken_by_name :
  RepositoryManager.tag_dates tie_rm !! "a"
  = RepositoryManager.tag_dates tie_rm !! "b" ∧
  @set_iter trie_order {[ "a"; "b" ]} = ["a"; "b"] ∧
  @main_current_tag trie_order tie_rm {[ "a"; "b" ]} = inr "a" ∧
  @set_iter reverse_order {[ "a"; "b" ]} = ["b"; "a"] ∧
  @main_current_tag reverse_order tie_rm {[ "a"; "b" ]} = inr "b".
Proof. vm_compute. done. Qed.

Lemma tie_goes_to_first_in_iteration_order_witness :
  ∃ t d pre post,
    @main_current_tag reverse_order tie_rm {[ "a"; "b" ]} = inr t ∧
    @set_iter reverse_order {[ "a"; "b" ]} = pre ++ t :: post ∧
    RepositoryManager.tag_dates tie_rm !! t = Some d ∧
    (∀ u, u ∈ pre →
          ∃ du, RepositoryManager.tag_dates tie_rm !! u = Some du ∧ du < d) ∧
    (∀ u, u ∈ post →
          ∃ du, RepositoryManager.tag_dates tie_rm !! u = Some du ∧ du ≤ d).
Proof.
  apply (@tie_goes_to_first_in_iteration_order reverse_order tie_rm
           {[ "a"; "b" ]}).
  - apply (non_empty_inhabited_L "a"). set_solver.
  - intros t Ht.
    assert (t = "a" ∨ t = "b") as [-> | ->] by set_solver; vm_compute; by eexists.
Defined.

Lemma no_current_without_available_witness :
  @main_elect_current trie_order failing_env abc_rm "P" {[ "A"; "B"; "C" ]}
    all_failed = (inr tt, all_failed) ∧
  @main_product trie_order failing_env abc_rm "P" fresh_state
  = (inr tt, all_failed).
Proof.
  apply (@no_current_without_available trie_order failing_env abc_rm "P"
           {[ "A"; "B"; "C" ]} ∅ fresh_state all_failed).
  - vm_compute. reflexivity.
  - vm_compute. reflexivity.
  - vm_compute. reflexivity.
  - set_solver.
Defined.

(** * Further properties of the code *)

(** ** What [insert] files, and where *)

Lemma truthy_iff s : Py.truthy s = true ↔ s ≠ "".
Proof. by destruct s. Qed.

Lemma elem_of_with_tag tag s t :
  t ∈ with_tag tag s ↔ t ∈ s ∨ (tag = Some t ∧ t ≠ "").
Proof.
  destruct tag as [t'|]; simpl; [|naive_solver].
  destruct (Py.truthy t') eqn:Htr.
  - apply truthy_iff in Htr. rewrite elem_of_union, elem_of_singleton.
    naive_solver.
  - assert (t' = "") as -> by (by destruct t'). naive_solver.
Qed.

Lemma with_tag_comm tag1 tag2 s :
  with_tag tag1 (with_tag tag2 s) = with_tag tag2 (with_tag tag1 s).
Proof.
  apply set_eq. intros t. rewrite !elem_of_with_tag. naive_solver.
Qed.

Lemma registered_tagset tr product version :
  registered tr product version ↔ is_Some (tagset tr product version).
Proof.
  unfold registered, tagset.
  destruct (ProductTracker._products tr !! product) as [p|]; simpl.
  - naive_solver.
  - split; [by intros (? & ? & ?)|by intros [? ?]].
Qed.

Lemma tracks_tagset tr product version tag :
  tracks tr product version tag ↔
  ∃ ts, tagset tr product version = Some ts ∧ tag ∈ ts.
Proof.
  unfold tracks, tagset.
  destruct (ProductTracker._products tr !! product) as [p|]; simpl.
  - naive_solver.
  - split; [by intros (? & ? & ? & ?)|by intros (? & ? & ?)].
Qed.

Lemma tagset_inserted tr product version tag product' version' :
  tagset (inserted tr product version tag) product' version'
  = if decide (product = product' ∧ version = version')
    then Some (with_tag tag (tags_before tr product version))
    else tagset tr product' version'.
Proof.
  unfold tagset, inserted, tags_before; simpl.
  destruct (decide (product = product')) as [<-|Hp].
  - rewrite lookup_insert_eq; simpl.
    destruct (decide (version = version')) as [<-|Hv].
    + rewrite lookup_insert_eq, decide_True by done.
      by destruct (ProductTracker._products tr !! product).
    + rewrite lookup_insert_ne by done. rewrite decide_False by naive_solver.
      destruct (ProductTracker._products tr !! product); [done|].
      simpl. by rewrite lookup_empty.
  - rewrite lookup_insert_ne by done. by rewrite decide_False by naive_solver.
Qed.

Lemma registered_inserted tr product version tag product' version' :
  registered (inserted tr product version tag) product' version' ↔
  registered tr product' version' ∨ (product' = product ∧ version' = version).
Proof.
  rewrite !registered_tagset, tagset_inserted. case_decide; naive_solver.
Qed.

Lemma tracks_inserted tr product version tag product' version' t :
  tracks (inserted tr product version tag) product' version' t ↔
  tracks tr product' version' t
  ∨ (product' = product ∧ version' = version ∧ tag = Some t ∧ t ≠ "").
Proof.
  rewrite !tracks_tagset, tagset_inserted. case_decide as Heq.
  - destruct Heq as [<- <-]. unfold tags_before. fold (tagset tr product version).
    split.
    + intros (ts & [= <-] & Ht). apply elem_of_with_tag in Ht as [Ht|Ht].
      * left. destruct (tagset tr product version) as [ts|]; [|set_solver].
        by exists ts.
      * right. naive_solver.
    + intros [(ts & Hts & Ht)|(_ & _ & Ht)]; eexists; (split; [done|]);
        apply elem_of_with_tag.
      * left. by rewrite Hts.
      * by right.
  - naive_solver.
Qed.

Lemma names_ok_init : names_ok ProductTracker.__init__.
Proof. intros n p. simpl. by rewrite lookup_empty. Qed.

Lemma names_ok_inserted tr product version tag :
  names_ok tr → names_ok (inserted tr product version tag).
Proof.
  intros Hok n p. unfold inserted; simpl.
  destruct (decide (product = n)) as [<-|Hne].
  - rewrite lookup_insert_eq. intros [= <-]; simpl.
    destruct (ProductTracker._products tr !! product) as [p0|] eqn:Hp0; simpl.
    + by apply Hok.
    + done.
  - rewrite lookup_insert_ne by done. apply Hok.
Qed.

(** X1. Two calls of [insert] give the same tracker in either order: the
    order of the lines read does not show in the catalogue. *)
Theorem insert_commutes (tr : ProductTracker.t)
    (product1 version1 : string) (tag1 : option string)
    (product2 version2 : string) (tag2 : option string) :
  ∃ tr1 tr2 tr12,
    ProductTracker.insert tr product1 version1 tag1 = inr tr1 ∧
    ProductTracker.insert tr1 product2 version2 tag2 = inr tr12 ∧
    ProductTracker.insert tr product2 version2 tag2 = inr tr2 ∧
    ProductTracker.insert tr2 product1 version1 tag1 = inr tr12.
Proof.
  exists (inserted tr product1 version1 tag1),
         (inserted tr product2 version2 tag2),
         (inserted (inserted tr product1 version1 tag1) product2 version2 tag2).
  rewrite !insert_inserted. do 3 (split; [done|]). f_equal.
  unfold inserted; simpl. f_equal.
  destruct (decide (product1 = product2)) as [<-|Hp].
  - rewrite !lookup_insert_eq, !insert_insert_eq; simpl. f_equal. f_equal.
    destruct (decide (version1 = version2)) as [<-|Hv].
    + rewrite !lookup_insert_eq, !insert_insert_eq; simpl.
      by rewrite with_tag_comm.
    + rewrite !lookup_insert_ne by done. by apply insert_insert_ne.
  - rewrite !lookup_insert_ne by done. by apply insert_insert_ne.
Qed.

(** ** The queries of a product *)

Lemma elem_of_fst_filter {A B} (f : A * B → bool) (l : list (A * B)) x :
  x ∈ (List.filter f l).*1 → x ∈ l.*1.
Proof.
  rewrite !list_elem_of_fmap. intros (y & -> & Hy).
  apply list_elem_of_In, filter_In in Hy as [Hy _].
  exists y. split; [done|]. by apply list_elem_of_In.
Qed.

Lemma NoDup_fst_filter {A B} (f : A * B → bool) (l : list (A * B)) :
  NoDup l.*1 → NoDup (List.filter f l).*1.
Proof.
  induction l as [|y l IH]; simpl; [done|].
  intros [Hy Hl]%NoDup_cons. destruct (f y); simpl; [|by apply IH].
  apply NoDup_cons. split; [|by apply IH].
  intros Hin. by apply Hy, (elem_of_fst_filter f).
Qed.

Section product_queries.
Context `{IterOrder}.

Lemma NoDup_dict_keys {V} (m : gmap string V) : NoDup (dict_iter m).*1.
Proof. rewrite dict_iter_perm. apply NoDup_fst_map_to_list. Qed.

Lemma elem_of_versions_tag (p : Product.t) tag v :
  v ∈ Product.versions p (Some tag) ↔
  ∃ ts, Product._versions p !! v = Some ts ∧ tag ∈ ts.
Proof.
  unfold Product.versions. rewrite list_elem_of_fmap. split.
  - intros ([v' ts] & -> & Hin).
    apply list_elem_of_In, filter_In in Hin as [Hin Htag].
    apply list_elem_of_In, elem_of_dict_iter in Hin.
    apply bool_decide_eq_true in Htag. by exists ts.
  - intros (ts & Hv & Htag). exists (v, ts). split; [done|].
    apply list_elem_of_In, filter_In. split.
    + by apply list_elem_of_In, elem_of_dict_iter.
    + by apply bool_decide_eq_true.
Qed.

(** X6. [Product.versions] lists each version once: all registered versions
    without a tag, those carrying the tag with one. *)
Theorem Product_versions_spec (p : Product.t) (tag : string) :
  NoDup (Product.versions p None) ∧
  NoDup (Product.versions p (Some tag)) ∧
  (∀ v, v ∈ Product.versions p None ↔ is_Some (Product._versions p !! v)) ∧
  (∀ v, v ∈ Product.versions p (Some tag) ↔
        ∃ ts, Product._versions p !! v = Some ts ∧ tag ∈ ts).
Proof.
  split; [apply NoDup_dict_keys|]. split.
  - apply NoDup_fst_filter, NoDup_dict_keys.
  - split; [intros v; apply elem_of_dict_keys|intros v; apply elem_of_versions_tag].
Qed.

(** X7. [Product.tags()] raises [TypeError] exactly on a product without
    versions: [set.union] is then called without an argument. *)
Theorem Product_tags_TypeError_iff (p : Product.t) :
  Product.tags p None = inl TypeError ↔ Product._versions p = ∅.
Proof.
  split; [|apply Product_tags_empty]. intros Herr.
  destruct (decide (Product._versions p = ∅)) as [|Hne]; [done|].
  destruct (Product_tags_all p Hne) as (s & Hs & _). congruence.
Qed.

(** X8. Registering a version and then tagging it always works, adds the tag
    to the tags the version had (a version that was already registered
    keeps its tags) and leaves the other versions alone. *)
Theorem add_version_add_tag (p : Product.t) (version tag : string) :
  ∃ p',
    Product.add_tag (Product.add_version p version) version tag = inr p' ∧
    Product.name p' = Product.name p ∧
    Product.tags p' (Some version)
    = inr ({[tag]} ∪ default ∅ (Product._versions p !! version)) ∧
    ∀ version', version' ≠ version →
      Product.tags p' (Some version') = Product.tags p (Some version').
Proof.
  unfold Product.add_version, Product.add_tag, Product.tags.
  destruct (Product._versions p !! version) as [ts|] eqn:Hv; simpl.
  - rewrite Hv. eexists. split; [done|]. simpl. split; [done|].
    rewrite lookup_insert_eq. split; [done|].
    intros v' Hne. by rewrite lookup_insert_ne.
  - rewrite lookup_insert_eq. eexists. split; [done|]. simpl. split; [done|].
    rewrite insert_insert_eq, lookup_insert_eq. split; [done|].
    intros v' Hne. by rewrite lookup_insert_ne.
Qed.

(** Tagging a version that was never registered raises [KeyError]. *)
Lemma add_tag_unregistered (p : Product.t) (version tag : string) :
  Product._versions p !! version = None →
  Product.add_tag p version tag = inl KeyError.
Proof. unfold Product.add_tag. by intros ->. Qed.

End product_queries.

(** ** The queries of a tracker, in terms of the calls that built it *)

Lemma tracker_after_contents (calls : list (string * string * option string)) :
  ∃ tr,
    tracker_after calls = inr tr ∧ names_ok tr ∧ has_versions tr ∧
    (∀ p v, registered tr p v ↔ ∃ tag, (p, v, tag) ∈ calls) ∧
    (∀ p v t, tracks tr p v t ↔ (p, v, Some t) ∈ calls ∧ t ≠ "").
Proof.
  induction calls as [|[[p0 v0] tag0] calls IH] using rev_ind.
  - exists ProductTracker.__init__. split; [done|].
    split; [apply names_ok_init|]. split; [apply has_versions_init|]. split.
    + intros p v. rewrite registered_tagset. unfold tagset; simpl.
      rewrite lookup_empty; simpl. split; [by intros [? ?]|].
      intros (? & Hin). by apply elem_of_nil in Hin.
    + intros p v t. rewrite tracks_tagset. unfold tagset; simpl.
      rewrite lookup_empty; simpl. split; [by intros (? & ? & ?)|].
      intros [Hin _]. by apply elem_of_nil in Hin.
  - destruct IH as (tr & Htr & Hn & Hv & Hreg & Htrk).
    exists (inserted tr p0 v0 tag0). rewrite tracker_after_snoc, Htr; simpl.
    split; [apply insert_inserted|].
    split; [by apply names_ok_inserted|].
    split; [by apply has_versions_inserted|]. split.
    + intros p v. rewrite registered_inserted, Hreg. split.
      * intros [(tag & Hin)|[-> ->]]; [exists tag|exists tag0]; set_solver.
      * intros (tag & [Hin|Hin]%elem_of_app); [left; by exists tag|].
        apply list_elem_of_singleton in Hin. right. by simplify_eq.
    + intros p v t. rewrite tracks_inserted, Htrk. split.
      * intros [[Hin Ht]|(-> & -> & -> & Ht)]; (split; [|done]); set_solver.
      * intros [[Hin|Hin]%elem_of_app Ht]; [by left|].
        apply list_elem_of_singleton in Hin. right. by simplify_eq.
Qed.

Lemma NoDup_flat_map_keyed {A B} (f : string * A → list B)
    (l : list (string * A)) :
  NoDup l.*1 → (∀ x, x ∈ l → NoDup (f x)) →
  NoDup (flat_map (λ x, map (pair x.1) (f x)) l).
Proof.
  induction l as [|x l IH]; simpl; [constructor|].
  intros [Hx Hl]%NoDup_cons Hf. apply NoDup_app. split; [|split].
  - apply (NoDup_fmap_2 _). apply Hf. set_solver.
  - intros [k b] Hin1 Hin2.
    apply list_elem_of_fmap in Hin1 as (b' & [= -> ->] & _).
    apply list_elem_of_In, in_flat_map in Hin2 as (y & Hy & Hin2).
    apply list_elem_of_In, list_elem_of_fmap in Hin2 as (b'' & [= Hk _] & _).
    apply Hx. rewrite Hk. apply list_elem_of_fmap. exists y.
    split; [done|]. by apply list_elem_of_In.
  - apply IH; [done|]. intros y Hy. apply Hf. set_solver.
Qed.

Section tracker_queries.
Context `{IterOrder}.

Lemma has_version_registered tr product version :
  ProductTracker.has_version tr product version = true ↔
  registered tr product version.
Proof.
  unfold ProductTracker.has_version, registered.
  destruct (ProductTracker._products tr !! product) as [p|]; [|naive_solver].
  rewrite bool_decide_eq_true. unfold Product.versions.
  rewrite elem_of_dict_keys. naive_solver.
Qed.

Lemma products_for_tag_tracks tr tag product version :
  names_ok tr →
  (product, version) ∈ ProductTracker.products_for_tag tr tag ↔
  tracks tr product version tag.
Proof.
  intros Hn. unfold ProductTracker.products_for_tag, tracks.
  rewrite list_elem_of_In, in_flat_map. setoid_rewrite <- list_elem_of_In.
  split.
  - intros (p & [key Hp]%elem_of_dict_values & Hin).
    apply list_elem_of_fmap in Hin as (v & [= -> ->] & Hv).
    apply elem_of_versions_tag in Hv as (ts & Hv & Ht).
    exists p, ts. by rewrite (Hn _ _ Hp).
  - intros (p & ts & Hp & Hv & Ht). exists p. split.
    + apply elem_of_dict_values. by exists product.
    + apply list_elem_of_fmap. exists version. rewrite (Hn _ _ Hp).
      split; [done|]. apply elem_of_versions_tag. by exists ts.
Qed.

Lemma flat_map_keyed (l : list (string * Product.t)) tag :
  (∀ kp, kp ∈ l → Product.name kp.2 = kp.1) →
  flat_map (λ product : Product.t,
              map (λ version, (Product.name product, version))
                  (Product.versions product (Some tag))) l.*2
  = flat_map (λ kp : string * Product.t,
                map (pair kp.1) (Product.versions kp.2 (Some tag))) l.
Proof.
  induction l as [|[k p] l IH]; intros Hall; [done|].
  rewrite fmap_cons. cbn [flat_map fst snd].
  rewrite IH by (intros kp Hkp; apply Hall; set_solver).
  f_equal. specialize (Hall (k, p)). cbn [fst snd] in Hall.
  by rewrite Hall by set_solver.
Qed.

Lemma products_for_tag_keyed tr tag :
  names_ok tr →
  ProductTracker.products_for_tag tr tag
  = flat_map (λ kp : string * Product.t,
                map (pair kp.1) (Product.versions kp.2 (Some tag)))
             (dict_iter (ProductTracker._products tr)).
Proof.
  intros Hn. apply flat_map_keyed.
  intros [k p] Hin%elem_of_dict_iter. by apply Hn in Hin.
Qed.

Lemma NoDup_products_for_tag tr tag :
  names_ok tr → NoDup (ProductTracker.products_for_tag tr tag).
Proof.
  intros Hn. rewrite products_for_tag_keyed by done.
  apply (NoDup_flat_map_keyed (λ kp, Product.versions kp.2 (Some tag))).
  - apply NoDup_dict_keys.
  - intros [k p] _. apply NoDup_fst_filter, NoDup_dict_keys.
Qed.

(** X2. [products_for_tag] after any calls of [insert]: each (product,
    version) inserted with the tag, once; a call with an empty tag files
    no tag. *)
Theorem products_for_tag_after_inserts
    (calls : list (string * string * option string)) (tag : string) :
  ∃ tr,
    tracker_after calls = inr tr ∧
    NoDup (ProductTracker.products_for_tag tr tag) ∧
    ∀ product version,
      (product, version) ∈ ProductTracker.products_for_tag tr tag ↔
      (product, version, Some tag) ∈ calls ∧ tag ≠ "".
Proof.
  destruct (tracker_after_contents calls) as (tr & Htr & Hn & _ & _ & Htrk).
  exists tr. split; [done|]. split; [by apply NoDup_products_for_tag|].
  intros product version. by rewrite products_for_tag_tracks, Htrk.
Qed.

(** X3. [has_version] after any calls of [insert]: true exactly for the
    (product, version) of some call, whatever its tag. *)
Theorem has_version_after_inserts
    (calls : list (string * string * option string)) (product version : string) :
  ∃ tr,
    tracker_after calls = inr tr ∧
    (ProductTracker.has_version tr product version = true ↔
     ∃ tag, (product, version, tag) ∈ calls).
Proof.
  destruct (tracker_after_contents calls) as (tr & Htr & _ & _ & Hreg & _).
  exists tr. split; [done|]. by rewrite has_version_registered, Hreg.
Qed.

(** X4. [tags_for_product] after any calls of [insert]: the non-empty tags
    inserted for some version of the product; the empty set for a product
    never inserted. *)
Theorem tags_for_product_after_inserts
    (calls : list (string * string * option string)) (product : string) :
  ∃ tr tags,
    tracker_after calls = inr tr ∧
    ProductTracker.tags_for_product tr product = inr tags ∧
    ∀ t, t ∈ tags ↔ t ≠ "" ∧ ∃ version, (product, version, Some t) ∈ calls.
Proof.
  destruct (tracker_after_contents calls) as (tr & Htr & _ & Hv & _ & Htrk).
  destruct (tags_for_product_spec tr product Hv) as (tags & Htags & Hspec).
  exists tr, tags. split; [done|]. split; [done|].
  intros t. rewrite Hspec. split.
  - intros (p & v & ts & Hp & Hvs & Ht).
    assert (Htr' : tracks tr product v t) by (by exists p, ts).
    apply Htrk in Htr' as [? ?]. split; [done|by exists v].
  - intros (Ht & v & Hin).
    assert (Htr' : tracks tr product v t) by (by apply Htrk).
    destruct Htr' as (p & ts & ? & ? & ?). by exists p, v, ts.
Qed.

(** X5. [current] after any calls of [insert]: [None] for a product never
    inserted, a version inserted with the tag "current" if there is one,
    and [IndexError] (not [None]) for a product that has versions but none
    tagged "current". *)
Theorem current_after_inserts
    (calls : list (string * string * option string)) (product : string) :
  ∃ tr,
    tracker_after calls = inr tr ∧
    match ProductTracker.current tr product with
    | inr None => ∀ version tag, (product, version, tag) ∉ calls
    | inr (Some version) => (product, version, Some "current") ∈ calls
    | inl e =>
        e = IndexError ∧
        (∃ version tag, (product, version, tag) ∈ calls) ∧
        ∀ version, (product, version, Some "current") ∉ calls
    end.
Proof.
  destruct (tracker_after_contents calls) as (tr & Htr & _ & Hv & Hreg & Htrk).
  exists tr. split; [done|]. unfold ProductTracker.current.
  destruct (ProductTracker._products tr !! product) as [p|] eqn:Hp.
  - destruct (Product.versions p (Some "current")) as [|v l] eqn:Hl.
    + split; [done|]. split.
      * destruct (map_choose _ (Hv _ _ Hp)) as (v & ts & Hvs).
        assert (Hr : registered tr product v) by (exists p; eauto).
        apply Hreg in Hr as [tag Hin]. by exists v, tag.
      * intros v Hin.
        assert (Ht : tracks tr product v "current") by (by apply Htrk).
        destruct Ht as (p' & ts & Hp' & Hvs & Ht).
        assert (p' = p) as -> by congruence.
        assert (Hmem : v ∈ Product.versions p (Some "current"))
          by (apply elem_of_versions_tag; eauto).
        rewrite Hl in Hmem. by apply elem_of_nil in Hmem.
    + assert (Hmem : v ∈ Product.versions p (Some "current"))
        by (rewrite Hl; set_solver).
      apply elem_of_versions_tag in Hmem as (ts & Hvs & Ht).
      apply Htrk. by exists p, ts.
  - intros v tag Hin.
    assert (Hr : registered tr product v) by (apply Hreg; eauto).
    destruct Hr as (p & Hp' & _). congruence.
Qed.

End tracker_queries.

(** ** Splitting strings *)

Lemma append_nil_l s : "" +:+ s = s.
Proof. done. Qed.

Lemma append_cons c a s : String c a +:+ s = String c (a +:+ s).
Proof. done. Qed.

Lemma split_not_nil sep s : Py.split sep s ≠ [].
Proof.
  destruct s as [|c s]; simpl; [done|].
  destruct (Ascii.eqb c sep); [done|]. by destruct (Py.split sep s).
Qed.

Lemma split_no_sep sep s : mentions sep s = false → Py.split sep s = [s].
Proof.
  induction s as [|c s IH]; simpl; [done|].
  intros [Hc Hs]%orb_false_iff. rewrite Hc. by rewrite IH.
Qed.

Lemma split_app sep a b :
  mentions sep a = false →
  Py.split sep (a +:+ String sep b) = a :: Py.split sep b.
Proof.
  induction a as [|c a IH]; intros Ha.
  - rewrite append_nil_l. simpl. by rewrite Ascii.eqb_refl.
  - simpl in Ha. apply orb_false_iff in Ha as [Hc Ha].
    rewrite append_cons. simpl. rewrite Hc. by rewrite IH.
Qed.

Lemma length_split sep s :
  length (Py.split sep s) = S (count_char sep s).
Proof.
  induction s as [|c s IH]; simpl; [done|].
  destruct (Ascii.eqb c sep); simpl; [by rewrite IH|].
  destruct (Py.split sep s) as [|w ws] eqn:Hsplit; [by apply split_not_nil in Hsplit|].
  simpl in *. done.
Qed.

Lemma contains_nil_l s : Py.contains "" s = true.
Proof. by destruct s. Qed.

(** ** Reading the local inventory *)

Lemma tracks_foldl_inserted tr p v (l : list string) p' v' t :
  tracks (foldl (λ tr tag, inserted tr p v (Some tag)) tr l) p' v' t ↔
  tracks tr p' v' t ∨ (p' = p ∧ v' = v ∧ t ∈ l ∧ t ≠ "").
Proof.
  revert tr. induction l as [|tag l IH]; intros tr; simpl.
  - split; [by left|]. intros [?|(_ & _ & Hin & _)]; [done|].
    by apply elem_of_nil in Hin.
  - rewrite IH, tracks_inserted. split.
    + intros [[?|(-> & -> & [= ->] & ?)]|(-> & -> & ? & ?)];
        [by left|right|right]; (do 2 (split; [done|])); (split; [|done]);
        set_solver.
    + intros [?|(-> & -> & [->|?]%elem_of_cons & ?)];
        [by left; left|left; right|right]; done.
Qed.

Lemma registered_foldl_inserted tr p v (l : list string) p' v' :
  registered (foldl (λ tr tag, inserted tr p v (Some tag)) tr l) p' v' ↔
  registered tr p' v' ∨ (p' = p ∧ v' = v ∧ l ≠ []).
Proof.
  revert tr. induction l as [|tag l IH]; intros tr; simpl.
  - naive_solver.
  - rewrite IH, registered_inserted. naive_solver.
Qed.

Lemma elem_of_kept_tags t tags :
  t ∈ kept_tags tags ↔ t ∈ tags ∧ Py.contains t "setup" = false.
Proof.
  unfold kept_tags. rewrite list_elem_of_In, filter_In, <- list_elem_of_In.
  by rewrite negb_true_iff.
Qed.

Section refresh.
Import StackManager.

Lemma with_tracker_local s : with_tracker s (local_tracker s) = s.
Proof. by destruct s as [h [d tr]]. Qed.

Lemma run_refresh_tags p v (l : list string) s :
  for_each l (λ tag, if Py.contains tag "setup" then mret tt
                     else tracker_insert p v (Some tag)) s
  = (inr tt,
     with_tracker s (foldl (λ tr tag, inserted tr p v (Some tag))
                           (local_tracker s) (kept_tags l))).
Proof.
  revert s. induction l as [|tag l IH]; intros s.
  - simpl. by rewrite with_tracker_local.
  - cbn [for_each]. unfold kept_tags. cbn [List.filter].
    fold (kept_tags l). destruct (Py.contains tag "setup"); cbn [negb].
    + erewrite run_bind_inr by done. apply IH.
    + erewrite run_bind_inr by apply run_tracker_insert.
      rewrite IH. done.
Qed.

Lemma run_refresh_line_fields p v tags s :
  mentions "|" p = false → mentions "|" v = false → mentions "|" tags = false →
  refresh_line (p +:+ "|" +:+ v +:+ "|" +:+ tags) s
  = (inr tt,
     with_tracker s
       (foldl (λ tr tag, inserted tr p v (Some tag))
              (if decide (tags = "") then inserted (local_tracker s) p v None
               else local_tracker s)
              (kept_tags (Py.split ":" tags)))).
Proof.
  intros Hp Hv Ht. unfold refresh_line.
  assert (Hsplit : Py.split "|" (p +:+ "|" +:+ v +:+ "|" +:+ tags)
                   = [p; v; tags]).
  { change (p +:+ "|" +:+ v +:+ "|" +:+ tags)
      with (p +:+ String "|" (v +:+ String "|" tags)).
    rewrite split_app by done. rewrite split_app by done.
    by rewrite split_no_sep. }
  destruct (decide (p +:+ "|" +:+ v +:+ "|" +:+ tags = "")) as [Heq|_].
  { rewrite Heq in Hsplit. done. }
  rewrite Hsplit. destruct (decide (tags = "")) as [->|Hne].
  - erewrite run_bind_inr by apply run_tracker_insert.
    by rewrite run_refresh_tags.
  - erewrite run_bind_inr by done. by rewrite run_refresh_tags.
Qed.

(** X9. A line [product|version|tag:tag:...] of the inventory (no field holds
    a [|]) is read without error or effect; it adds to the catalogue the
    tags of its list that are not substrings of "setup", and registers
    the version when the list is empty or some tag of it is kept.  A
    version whose only tag is "setup" is thus not registered. *)
Theorem refresh_line_keeps (product version tags : string)
    (s : StackManager.state) :
  mentions "|" product = false → mentions "|" version = false →
  mentions "|" tags = false →
  ∃ s',
    refresh_line (product +:+ "|" +:+ version +:+ "|" +:+ tags) s = (inr tt, s') ∧
    history s' = history s ∧
    (∀ p v t, tracks (local_tracker s') p v t ↔
              tracks (local_tracker s) p v t
              ∨ (p = product ∧ v = version ∧ t ∈ Py.split ":" tags
                 ∧ Py.contains t "setup" = false)) ∧
    (∀ p v, registered (local_tracker s') p v ↔
            registered (local_tracker s) p v
            ∨ (p = product ∧ v = version
               ∧ (tags = "" ∨ ∃ t, t ∈ Py.split ":" tags
                                   ∧ Py.contains t "setup" = false))).
Proof.
  intros Hp Hv Ht. eexists. split; [by apply run_refresh_line_fields|].
  split; [done|]. cbn [local_tracker with_tracker self _product_tracker].
  split.
  - intros p v t. rewrite tracks_foldl_inserted, elem_of_kept_tags.
    destruct (decide (tags = "")) as [->|Hne].
    + rewrite tracks_inserted. split.
      * intros [[?|(_ & _ & [=] & _)]|(-> & -> & [? ?] & _)]; [by left|by right].
      * intros [?|(-> & -> & Hin & Hc)]; [by left; left|].
        right. do 3 (split; [done|]). intros ->. by rewrite contains_nil_l in Hc.
    + split.
      * intros [?|(-> & -> & [? ?] & _)]; [by left|by right].
      * intros [?|(-> & -> & Hin & Hc)]; [by left|].
        right. do 3 (split; [done|]). intros ->. by rewrite contains_nil_l in Hc.
  - intros p v. rewrite registered_foldl_inserted.
    assert (Hkept : kept_tags (Py.split ":" tags) ≠ [] ↔
                    ∃ t, t ∈ Py.split ":" tags ∧ Py.contains t "setup" = false).
    { split.
      - intros Hne. destruct (kept_tags _) as [|t l] eqn:Hk; [done|].
        exists t. apply elem_of_kept_tags. rewrite Hk. set_solver.
      - intros (t & Hin). apply elem_of_kept_tags in Hin.
        intros Hnil. rewrite Hnil in Hin. by apply elem_of_nil in Hin. }
    destruct (decide (tags = "")) as [->|Hne].
    + rewrite registered_inserted, Hkept. naive_solver.
    + rewrite Hkept. naive_solver.
Qed.

(** X10. A line of the inventory raises [ValueError] exactly when it is not
    empty and does not have two [|]; it is otherwise read without error. *)
Theorem refresh_line_ValueError_iff (line : string) (s : StackManager.state) :
  ((refresh_line line s).1 = inl ValueError ↔
   line ≠ "" ∧ count_char "|" line ≠ 2%nat) ∧
  ((refresh_line line s).1 = inr tt ↔
   line = "" ∨ count_char "|" line = 2%nat).
Proof.
  pose proof (length_split "|" line) as Hlen. unfold refresh_line.
  destruct (decide (line = "")) as [->|Hne].
  { split; [split; [done|by intros [? _]]|split; [by left|done]]. }
  destruct (Py.split "|" line) as [|p [|v [|tags [|x l]]]] eqn:Hsplit;
    simpl in Hlen;
    try (split; split;
         [intros _; split; [done|lia] | intros _; reflexivity
         | intros Hr; discriminate Hr | intros [?|?]; [done|lia]]).
  assert (Hcount : count_char "|" line = 2%nat) by lia.
  assert (Hok : ∃ s1, ((if decide (tags = "") then tracker_insert p v None
                        else mret tt) ;;
                       for_each (Py.split ":" tags)
                         (λ tag, if Py.contains tag "setup" then mret tt
                                 else tracker_insert p v (Some tag))) s
                      = (inr tt, s1)).
  { destruct (decide (tags = "")).
    - erewrite run_bind_inr by apply run_tracker_insert.
      rewrite run_refresh_tags. by eexists.
    - erewrite run_bind_inr by done. rewrite run_refresh_tags. by eexists. }
  destruct Hok as [s1 ->]. simpl.
  split; split; try done; [by intros [_ ?]|by right].
Qed.

End refresh.

(** ** The commands of the stack manager *)



Lemma install_argv_inj product tag product' tag' :
  install_argv product tag = install_argv product' tag' →
  product = product' ∧ tag = tag'.
Proof.
  unfold install_argv, StackManager.distrib_install_args; simpl.
  destruct tag as [|c tag], tag' as [|c' tag']; simpl; intros Heq;
    by simplify_eq.
Qed.

Lemma local_with_tracker s tr : local_tracker (with_tracker s tr) = tr.
Proof. done. Qed.

Lemma local_after s d : local_tracker (after s d) = local_tracker s.
Proof. done. Qed.

Section commands.
Context `{IterOrder} `{Env}.
Import StackManager.


(** X11. When [eups list --raw] fails, [_refresh_products] raises and leaves an
    empty catalogue behind, not the previous one: the catalogue is reset
    before the command runs. *)
Theorem refresh_failure_empties (s : StackManager.state) (rc : Z) (out : string) :
  run_process (history s) list_raw_argv = (rc, out) →
  rc ≠ 0 →
  ∃ s',
    _refresh_products s = (inl (CalledProcessError rc list_raw_argv), s') ∧
    local_tracker s' = ProductTracker.__init__ ∧
    history s'
    = history s ++ [Exec list_raw_argv; Print "Failed process output:"; Print out] ∧
    ∀ product, ProductTracker.tags_for_product (local_tracker s') product = inr ∅.
Proof.
  intros Hrun Hrc. unfold _refresh_products.
  erewrite run_bind_inr by done.
  erewrite run_bind_inl; cycle 1.
  { unfold _run_cmd. rewrite run_check_output.
    change (["eups"; "--nolocks"; "list"] ++ ["--raw"]) with list_raw_argv.
    simpl. rewrite Hrun. apply Z.eqb_neq in Hrc. by rewrite Hrc. }
  eexists. split; [done|]. split; [done|]. split; [done|]. done.
Qed.

(** The catalogue [_refresh_products] builds does not depend on the one
    it replaces. *)
Lemma refresh_forgets (s : StackManager.state) (tr : ProductTracker.t) :
  _refresh_products (with_tracker s tr) = _refresh_products s.
Proof. done. Qed.

(** X13. [apply_tag] changes nothing and runs nothing for a version the
    catalogue does not have.  For one it has, it starts the declare once;
    the tag enters the catalogue exactly when the declare exits with
    status 0 (and the tag is not empty), and no version is added. *)
Theorem apply_tag_outcome (product version tagname : string)
    (s : StackManager.state) :
  let r := apply_tag product version tagname s in
  (¬ registered (local_tracker s) product version → r = (inr tt, s)) ∧
  (registered (local_tracker s) product version →
   ∃ d, history r.2
        = history s ++ Exec (declare_argv tagname product version) :: d
        ∧ Forall is_print d) ∧
  (r.1 = inr tt ↔
   ¬ registered (local_tracker s) product version
   ∨ (run_process (history s) (declare_argv tagname product version)).1 = 0) ∧
  (∀ p v, registered (local_tracker r.2) p v ↔ registered (local_tracker s) p v) ∧
  (∀ p v t, tracks (local_tracker r.2) p v t ↔
            tracks (local_tracker s) p v t
            ∨ (p = product ∧ v = version ∧ t = tagname ∧ t ≠ ""
               ∧ registered (local_tracker s) product version
               ∧ (run_process (history s)
                    (declare_argv tagname product version)).1 = 0)).
Proof.
  intros r. subst r. rewrite run_apply_tag.
  destruct (ProductTracker.has_version (local_tracker s) product version) eqn:Hhas.
  - apply has_version_registered in Hhas. rewrite run_check_output.
    destruct (run_process (history s) (declare_argv tagname product version))
      as [rc out].
    destruct (Z.eqb_spec rc 0) as [->|Hrc]; simpl.
    + split; [done|]. split.
      { intros _. by exists []. }
      split; [naive_solver|]. split.
      * intros p v.
        rewrite local_with_tracker, local_after, registered_inserted.
        naive_solver.
      * intros p v t.
        rewrite local_with_tracker, local_after, tracks_inserted.
        naive_solver.
    + split; [done|]. split.
      { intros _. eexists. split; [done|].
        repeat constructor; by eexists. }
      split; [naive_solver|]. split; [done|]. naive_solver.
  - assert (Hno : ¬ registered (local_tracker s) product version).
    { intros Hr%has_version_registered. congruence. }
    split; [done|]. split; [done|]. split; [naive_solver|].
    split; [done|]. naive_solver.
Qed.

(** X14. [conda] runs [conda <action> --name lsst-scipipe --yes <package>],
    with [<package>] the name, or name=version for a non-empty version.
    The option [--no-update-deps] is never added, not even for the action
    "install": the test compares the literal "action" with "install". *)
Theorem conda_command (action package_name : string) (version : option string)
    (s : StackManager.state) :
  ∃ d,
    history (conda action package_name version s).2
    = history s
      ++ Exec ["conda"; action; "--name"; "lsst-scipipe"; "--yes";
               match version with
               | Some (String c v) => package_name +:+ "=" +:+ String c v
               | _ => package_name
               end] :: d ∧
    Forall is_print d.
Proof.
  unfold conda. rewrite bool_decide_eq_false_2 by done.
  rewrite run_check_output.
  assert (Hpkg : (if truthy_arg version
                  then package_name +:+ "=" +:+ default "" version
                  else package_name)
                 = match version with
                   | Some (String c v) => package_name +:+ "=" +:+ String c v
                   | _ => package_name
                   end) by (by destruct version as [[|c v]|]).
  rewrite Hpkg. destruct (run_process _ _) as [rc out].
  destruct (rc =? 0); simpl.
  - by exists [].
  - eexists. split; [done|]. repeat constructor; by eexists.
Qed.

(** X15. [version_from_tag] reads the catalogue only; in a catalogue filed by
    name it returns a version of the product that carries the tag, and
    [None] exactly when the product has no such version. *)
Theorem version_from_tag_spec (product_name tag : string)
    (s : StackManager.state) :
  names_ok (local_tracker s) →
  ∃ r,
    version_from_tag product_name tag s = (inr r, s) ∧
    match r with
    | Some version => tracks (local_tracker s) product_name version tag
    | None => ∀ version, ¬ tracks (local_tracker s) product_name version tag
    end.
Proof.
  intros Hn. unfold version_from_tag, tracker, mbind, M_bind, get; simpl.
  fold (local_tracker s). eexists. split; [done|].
  destruct (List.find _ _) as [[p v]|] eqn:Hfind; simpl.
  - apply find_some in Hfind as [Hin Hp]. simpl in Hp.
    apply bool_decide_eq_true in Hp as ->.
    by apply list_elem_of_In, products_for_tag_tracks in Hin.
  - intros v Htr. apply products_for_tag_tracks, list_elem_of_In in Htr; [|done].
    apply (find_none _ _ Hfind) in Htr. simpl in Htr.
    by apply bool_decide_eq_false in Htr.
Qed.

End commands.

(** ** Reading the remote catalogue *)











Section remote_reading.
Import RepositoryManager.





Lemma init_names_ok pattern index rm :
  __init__ pattern index = inr rm → names_ok (_product_tracker rm).
Proof.
  apply (foldl_exn_inv (read_listing pattern)
           (λ r, names_ok (_product_tracker r))).
  - apply names_ok_init.
  - intros el r r1 Hok. unfold read_listing.
    destruct (_ && _); [|by intros [= <-]]. intros Hfold.
    apply (foldl_exn_inv (read_line (Py.drop_last 5 (text el)))
             (λ r, names_ok (_product_tracker r))) in Hfold; [done|done|].
    intros line r2 r3 Hok2. unfold read_line.
    destruct (Py.contains _ line); [by intros [= <-]|].
    destruct (Py.strip line) as [|c ?]; [done|].
    destruct (Ascii.eqb c "#"); [by intros [= <-]|].
    destruct (Py.split_ws line) as [|product [|flavor [|version [|? ?]]]];
      try done.
    rewrite insert_inserted. simpl. intros [= <-]. simpl.
    by apply names_ok_inserted.
Qed.

(** X19. On a catalogue read from the server the election cannot fail: every
    tag of a product has a date, so [max] over any non-empty set of them
    returns a tag, never [KeyError]. *)
Theorem init_election_total `{IterOrder} (pattern : string → bool)
    (index : list listing) (rm : t) (product : string) :
  __init__ pattern index = inr rm →
  ∃ server,
    tags_for_product rm product = inr server ∧
    (∀ t, t ∈ server → is_Some (tag_dates rm !! t)) ∧
    ∀ available, available ⊆ server → available ≠ ∅ →
      ∃ t, main_current_tag rm available = inr t ∧ t ∈ available.
Proof.
  intros Hinit. pose proof (init_remote_ok _ _ _ Hinit) as [Hv Hd].
  destruct (tags_for_product_spec (_product_tracker rm) product Hv)
    as (server & Hserver & _).
  exists server. split; [done|].
  pose proof (init_server_tags_dated _ _ _ _ _ Hinit Hserver) as Hdated.
  split; [done|]. intros available Hsub Hne.
  destruct (main_current_tag_spec rm available Hne) as (t & d & Ht & Hfm).
  { intros t Ht. apply Hdated. set_solver. }
  exists t. split; [done|].
  apply elem_of_set_iter. by eapply first_maximal_elem.
Qed.

End remote_reading.

(** ** The effects of the loop *)

Section engine_events.
Context `{IterOrder} `{Env}.
Import StackManager.

Lemma behaves_check_output_argv argv :
  behaves (_check_output argv)
          (λ e, e = Exec argv ∨ is_print e)
          (λ e, ∃ rc, e = CalledProcessError rc argv).
Proof.
  intros s. rewrite run_check_output.
  destruct (run_process (history s) argv) as [rc out].
  destruct (rc =? 0); simpl.
  - split; [|done]. eexists. split; [done|].
    constructor; [by left|constructor].
  - split.
    + eexists. split; [done|].
      constructor; [by left|].
      constructor; [right; by eexists|].
      constructor; [right; by eexists|constructor].
    + intros e [= <-]. by eexists.
Qed.

Lemma engine_check_output argv :
  engine_event (Exec argv) →
  behaves (_check_output argv) engine_event
          (λ e, ∃ rc, e = CalledProcessError rc argv).
Proof.
  intros Hev. eapply behaves_weaken; [apply behaves_check_output_argv| |done].
  intros e [-> | [t ->]]; [done|constructor].
Qed.

Lemma silent_refresh_line line :
  behaves (refresh_line line) (λ _, False) (λ e, e = ValueError).
Proof.
  unfold refresh_line. destruct (decide (line = "")); [apply behaves_ret|].
  destruct (Py.split "|" line) as [|product [|version [|tags [|? ?]]]];
    try by apply behaves_raise.
  apply behaves_bind.
  - destruct (decide (tags = ""));
      [apply behaves_tracker_insert|apply behaves_ret].
  - intros _. apply behaves_for_each. intros tag _.
    destruct (Py.contains tag "setup");
      [apply behaves_ret|apply behaves_tracker_insert].
Qed.

Lemma engine_refresh_products :
  behaves _refresh_products engine_event (λ _, True).
Proof.
  unfold _refresh_products.
  apply behaves_bind; [apply behaves_set_tracker|]. intros _.
  apply behaves_bind.
  - eapply behaves_weaken; [apply (engine_check_output list_raw_argv)|done|done].
    constructor.
  - intros output. apply behaves_for_each. intros line _.
    eapply behaves_weaken; [apply silent_refresh_line|done|done].
Qed.

Lemma engine_tags : behaves tags engine_event (λ _, True).
Proof.
  unfold tags. apply behaves_bind.
  - eapply behaves_weaken; [apply (engine_check_output tags_argv)|done|done].
    constructor.
  - intros output. apply behaves_ret.
Qed.

Lemma engine_apply_tag product version tagname :
  behaves (apply_tag product version tagname) engine_event
          (declare_error tagname).
Proof.
  unfold apply_tag. apply behaves_bind.
  - unfold tracker. apply behaves_bind; [apply behaves_get|].
    intros s. apply behaves_ret.
  - intros tr. destruct (ProductTracker.has_version tr product version);
      [|apply behaves_ret].
    apply behaves_bind; [|intros _; apply behaves_tracker_insert].
    eapply behaves_weaken;
      [apply (engine_check_output (declare_argv tagname product version))|done|].
    + constructor.
    + intros e [rc ->]. by exists rc, product, version.
Qed.

Lemma engine_fan_out (pairs : list (string * string)) tagname :
  behaves (for_each pairs (λ pv, apply_tag pv.1 pv.2 tagname))
          engine_event (declare_error tagname).
Proof. apply behaves_for_each. intros pv _. apply engine_apply_tag. Qed.

Lemma engine_main_install_tag rm product tag :
  behaves (main_install_tag rm product tag) engine_event (λ _, True).
Proof.
  unfold main_install_tag.
  apply behaves_bind; [apply behaves_emit; constructor|]. intros _.
  apply behaves_except; [|apply behaves_emit; constructor].
  unfold main_install_block. apply behaves_bind.
  - unfold distrib_install. apply behaves_bind.
    + eapply behaves_weaken;
        [apply (engine_check_output (install_argv product tag))| |by left].
      * constructor.
      * done.
    + intros output. apply behaves_bind; [apply behaves_emit; constructor|].
      intros _. eapply behaves_weaken; [apply engine_refresh_products|done|].
      by left.
  - intros _. unfold main_declare. apply behaves_bind.
    { eapply behaves_weaken; [apply engine_tags|done|by left]. }
    intros declared. apply behaves_bind.
    { destruct (bool_decide (tag ∈ declared)); [apply behaves_ret|].
      apply behaves_bind; [apply behaves_emit; constructor|].
      intros _. apply behaves_emit. apply (ev_global tag). }
    intros _. apply behaves_bind; [apply behaves_emit; constructor|].
    intros _. eapply behaves_weaken; [apply engine_fan_out|done|by left].
Qed.

Lemma engine_mark_current rm product current_tag :
  behaves (mark_current rm product current_tag) engine_event
          (declare_error "current").
Proof.
  unfold mark_current.
  apply behaves_bind; [apply behaves_emit; constructor|].
  intros _. apply engine_fan_out.
Qed.

Lemma silent_tags_for_product product ok :
  behaves (tags_for_product product) ok (λ _, True).
Proof.
  unfold tags_for_product. apply behaves_bind.
  - unfold tracker. apply behaves_bind; [apply behaves_get|].
    intros s. apply behaves_ret.
  - intros tr. by apply behaves_lift.
Qed.

Lemma engine_main_elect_current rm product server :
  behaves (main_elect_current rm product server) engine_event (λ _, True).
Proof.
  unfold main_elect_current.
  apply behaves_bind; [apply silent_tags_for_product|]. intros local.
  destruct (decide (server ∩ local = ∅)); [apply behaves_ret|].
  apply behaves_bind; [by apply behaves_lift|]. intros current_tag.
  eapply behaves_weaken;
    [apply (engine_mark_current rm product current_tag)|done|done].
Qed.

Lemma engine_main_product rm product :
  behaves (main_product rm product) engine_event (λ _, True).
Proof.
  unfold main_product.
  apply behaves_bind; [apply behaves_emit; constructor|]. intros _.
  apply behaves_bind; [by apply behaves_lift|]. intros server.
  apply behaves_bind.
  - unfold main_install_phase.
    apply behaves_bind; [apply silent_tags_for_product|]. intros installed.
    apply behaves_for_each. intros tag _. apply engine_main_install_tag.
  - intros _. apply engine_main_elect_current.
Qed.

(** X20. Whatever the catalogues and the world, the loop of [main] prints,
    starts [eups distrib install], [eups list --raw], [eups tags] and
    [eups declare], and appends global tags to startup.py: nothing else.
    It never removes a product or a tag, and never runs [conda]. *)
Theorem main_loop_effects (rm : RepositoryManager.t) (products : list string)
    (s : StackManager.state) :
  ∃ d,
    history (main_loop rm products s).2 = history s ++ d ∧
    Forall engine_event d.
Proof.
  assert (Hb : behaves (main_loop rm products) engine_event (λ _, True)).
  { apply behaves_for_each. intros product _. apply engine_main_product. }
  by destruct (Hb s) as [Hd _].
Qed.

End engine_events.

(** ** The local catalogue stays well filed *)

Section keeps_any.
Import StackManager.
Variable I : ProductTracker.t → Prop.
Hypothesis I_init : I ProductTracker.__init__.
Hypothesis I_inserted : ∀ tr p v tag, I tr → I (inserted tr p v tag).
Context `{IterOrder} `{Env}.

Lemma any_tracker_insert product version tag :
  keeps I (tracker_insert product version tag).
Proof.
  intros s Hs. rewrite run_tracker_insert. simpl. by apply I_inserted.
Qed.

Lemma any_refresh_line line : keeps I (refresh_line line).
Proof.
  unfold refresh_line. destruct (decide (line = "")); [apply keeps_ret|].
  destruct (Py.split "|" line) as [|product [|version [|tags [|? ?]]]];
    try apply keeps_raise.
  apply keeps_bind.
  - destruct (decide (tags = ""));
      [apply any_tracker_insert|apply keeps_ret].
  - intros _. apply keeps_for_each. intros tag.
    destruct (Py.contains tag "setup");
      [apply keeps_ret|apply any_tracker_insert].
Qed.

Lemma any_refresh s : I (local_tracker (_refresh_products s).2).
Proof.
  unfold _refresh_products. unfold mbind at 1, M_bind at 1; simpl.
  set (s0 := {| history := history s; self := _ |}).
  assert (Hinit : I (local_tracker s0)) by apply I_init.
  revert Hinit. generalize s0. apply keeps_bind.
  - apply keeps_check_output.
  - intros output. apply keeps_for_each. apply any_refresh_line.
Qed.

Lemma any_apply_tag product version tagname :
  keeps I (apply_tag product version tagname).
Proof.
  intros s Hs. rewrite run_apply_tag.
  destruct (ProductTracker.has_version _ _ _); [|done].
  pose proof (keeps_check_output I (declare_argv tagname product version) s Hs)
    as Hc.
  destruct (_check_output _ s) as [[e|out] s1]; [done|]. simpl in *.
  by apply I_inserted.
Qed.

Lemma any_tags_for_product product : keeps I (tags_for_product product).
Proof.
  unfold tags_for_product, tracker.
  apply keeps_bind; [|intros tr; apply keeps_lift].
  apply keeps_bind; [by intros s|intros s; apply keeps_ret].
Qed.

Lemma any_main_install_tag rm product tag :
  keeps I (main_install_tag rm product tag).
Proof.
  unfold main_install_tag. apply keeps_bind; [apply keeps_emit|]. intros _.
  apply keeps_except; [|apply keeps_emit].
  unfold main_install_block. apply keeps_bind.
  - unfold distrib_install. apply keeps_bind; [apply keeps_check_output|].
    intros output. apply keeps_bind; [apply keeps_emit|].
    intros _ s _. apply any_refresh.
  - intros _. unfold main_declare. apply keeps_bind.
    { unfold tags. apply keeps_bind; [apply keeps_check_output|].
      intros output. apply keeps_ret. }
    intros declared. apply keeps_bind.
    { destruct (bool_decide _); [apply keeps_ret|].
      apply keeps_bind; [apply keeps_emit|]. intros _. apply keeps_emit. }
    intros _. apply keeps_bind; [apply keeps_emit|]. intros _.
    apply keeps_for_each. intros pv. apply any_apply_tag.
Qed.

Lemma any_main_loop rm products : keeps I (main_loop rm products).
Proof.
  apply keeps_for_each. intros product. unfold main_product.
  apply keeps_bind; [apply keeps_emit|]. intros _.
  apply keeps_bind; [apply keeps_lift|]. intros server.
  apply keeps_bind.
  - unfold main_install_phase.
    apply keeps_bind; [apply any_tags_for_product|].
    intros installed. apply keeps_for_each. intros tag.
    apply any_main_install_tag.
  - intros _. unfold main_elect_current.
    apply keeps_bind; [apply any_tags_for_product|].
    intros local. destruct (decide _); [apply keeps_ret|].
    apply keeps_bind; [apply keeps_lift|]. intros current_tag.
    apply keeps_bind; [apply keeps_emit|]. intros _.
    apply keeps_for_each. intros pv. apply any_apply_tag.
Qed.

End keeps_any.

Lemma well_filed_init : well_filed ProductTracker.__init__.
Proof. split; [apply has_versions_init|apply names_ok_init]. Qed.

Lemma well_filed_inserted tr p v tag :
  well_filed tr → well_filed (inserted tr p v tag).
Proof.
  intros [Hv Hn]. split;
    [by apply has_versions_inserted|by apply names_ok_inserted].
Qed.

Section local_catalogue.
Context `{IterOrder} `{Env}.
Import StackManager.

(** Whatever [eups list --raw] prints, the catalogue rebuilt from it has
    a version for each product and files each product under its name. *)
Lemma refresh_well_filed s : well_filed (local_tracker (_refresh_products s).2).
Proof.
  apply any_refresh; [apply well_filed_init|apply well_filed_inserted].
Qed.

(** X22. Through the loop of [main] the local catalogue keeps a version for
    each product and files each product under its name, so that the tags
    of any product can be read at the end. *)
Theorem main_loop_keeps_well_filed (rm : RepositoryManager.t)
    (products : list string) (s : StackManager.state) :
  well_filed (local_tracker s) →
  well_filed (local_tracker (main_loop rm products s).2) ∧
  ∀ product, ∃ tags,
    ProductTracker.tags_for_product
      (local_tracker (main_loop rm products s).2) product = inr tags.
Proof.
  intros Hs.
  assert (Hk : well_filed (local_tracker (main_loop rm products s).2)).
  { by apply (any_main_loop well_filed well_filed_init well_filed_inserted). }
  split; [done|]. intros product. destruct Hk as [Hv _].
  destruct (tags_for_product_spec _ product Hv) as (tags & Ht & _).
  by exists tags.
Qed.

End local_catalogue.

(** ** How the loop can end *)

Section loop_end.
Context `{IterOrder} `{Env}.
Import StackManager.

Lemma remote_ok_server rm product :
  remote_ok rm →
  ∃ server,
    RepositoryManager.tags_for_product rm product = inr server ∧
    ∀ t, t ∈ server → is_Some (RepositoryManager.tag_dates rm !! t).
Proof.
  intros [Hv Hd].
  destruct (tags_for_product_spec (RepositoryManager._product_tracker rm)
              product Hv) as (server & Hserver & Hspec).
  exists server. split; [done|]. intros t Ht.
  apply Hspec in Ht as (p & v & ts & ? & ? & ?). by eapply Hd.
Qed.

Lemma main_product_errors rm product s e :
  remote_ok rm → has_versions (local_tracker s) →
  (main_product rm product s).1 = inl e → loop_error e.
Proof.
  intros Hrm Hs.
  destruct (remote_ok_server rm product Hrm) as (server & Hserver & Hdated).
  destruct (tags_for_product_spec _ product Hs) as (installed & Hinst & _).
  rewrite (run_main_product rm product server installed) by done.
  set (s0 := after s [Print ("Considering " +:+ product)]).
  destruct (behaves_install_loop rm product (set_iter (server ∖ installed)) s0)
    as [_ Herr].
  assert (Hs1 : has_versions
                  (local_tracker
                     (for_each (set_iter (server ∖ installed))
                               (main_install_tag rm product) s0).2)).
  { apply (keeps_for_each has_versions); [|done].
    intros tag. apply keeps_main_install_tag. }
  destruct (for_each _ _ s0) as [[e1|[]] s1]; simpl in *.
  - intros [= <-]. left. by apply Herr.
  - destruct (tags_for_product_spec _ product Hs1) as (local & Hlocal & _).
    rewrite (run_main_elect_current _ _ _ local) by done.
    destruct (decide (server ∩ local = ∅)) as [|Hne]; [done|].
    destruct (main_current_tag_spec rm (server ∩ local) Hne)
      as (t & d & -> & _).
    { intros t Ht. apply Hdated. set_solver. }
    intros He. right.
    destruct (engine_mark_current rm product t s1) as [_ Hmark].
    by apply Hmark in He.
Qed.

(** X21. With a remote catalogue read from the server and a local one read
    from the inventory, the loop of [main] can only end by returning, by
    a [ValueError] (an inventory line it cannot read) or by the
    [CalledProcessError] of a declare of "current".  The failures of the
    installer, of [eups list], of [eups tags] and of the declares of a
    candidate tag happen inside the [try] and are caught. *)
Theorem main_loop_errors (rm : RepositoryManager.t) (products : list string)
    (s : StackManager.state) (e : exn) :
  remote_ok rm → has_versions (local_tracker s) →
  (main_loop rm products s).1 = inl e → loop_error e.
Proof.
  intros Hrm. unfold main_loop. revert s.
  induction products as [|product products IH]; intros s Hs; simpl; [done|].
  unfold mbind, M_bind.
  pose proof (main_product_errors rm product s) as Hp.
  pose proof (keeps_main_product rm product s Hs) as Hk.
  destruct (main_product rm product s) as [[e1|[]] s1]; simpl in *.
  - intros [= <-]. by apply Hp.
  - by apply IH.
Qed.

(** X23. A product the server does not list is passed over: its round prints
    one line and does nothing else. *)
Theorem unknown_product_skipped (rm : RepositoryManager.t) (product : string)
    (installed : gset string) (s : StackManager.state) :
  RepositoryManager.tags_for_product rm product = inr ∅ →
  ProductTracker.tags_for_product (local_tracker s) product = inr installed →
  main_product rm product s
  = (inr tt, after s [Print ("Considering " +:+ product)]).
Proof.
  intros Hserver Hinst.
  rewrite (run_main_product rm product ∅ installed) by done.
  assert (set_iter (∅ ∖ installed) = []) as ->.
  { apply set_iter_nil. set_solver. }
  simpl. rewrite (run_main_elect_current _ _ _ installed) by done.
  rewrite decide_True by set_solver. done.
Qed.

Lemma fan_out_records (pairs : list (string * string)) tagname s s' :
  tagname ≠ "" →
  for_each pairs (λ pv, apply_tag pv.1 pv.2 tagname) s = (inr tt, s') →
  (∀ p v t, tracks (local_tracker s) p v t → tracks (local_tracker s') p v t) ∧
  (∀ p v, registered (local_tracker s') p v ↔ registered (local_tracker s) p v) ∧
  ∀ p v, (p, v) ∈ pairs → registered (local_tracker s') p v →
         tracks (local_tracker s') p v tagname.
Proof.
  intros Hne. revert s. induction pairs as [|[p0 v0] l IH]; intros s; simpl.
  - intros [= <-]. split; [done|]. split; [done|].
    intros p v Hin. by apply elem_of_nil in Hin.
  - intros (a & s1 & Hstep & Hrest)%bind_inr_inv. destruct a.
    destruct (IH s1 Hrest) as (Hmono & Hreg & Hall).
    apply apply_tag_inr in Hstep as [[Hno ->]|(Hyes & Hh & Htr)].
    + split; [done|]. split; [done|].
      intros p v [[= -> ->]|Hin]%elem_of_cons Hr; [|by apply Hall].
      apply Hreg, has_version_registered in Hr. congruence.
    + apply has_version_registered in Hyes.
      assert (Hreg1 : ∀ p v, registered (local_tracker s1) p v ↔
                             registered (local_tracker s) p v).
      { intros p v. rewrite Htr, registered_inserted. naive_solver. }
      split; [|split].
      * intros p v t Ht. apply Hmono. rewrite Htr, tracks_inserted. by left.
      * intros p v. by rewrite Hreg, Hreg1.
      * intros p v [[= -> ->]|Hin]%elem_of_cons Hr; [|by apply Hall].
        apply Hmono. rewrite Htr, tracks_inserted. by right.
Qed.

(** X24. After the body of the [try] ran to its end for a tag, the local
    catalogue carries the tag on every (product, version) of the release
    that it contains: the tag is then among the local tags of these
    products, which is what makes it available to the election. *)
Theorem install_block_files_tag (rm : RepositoryManager.t)
    (product tag : string) (s s' : StackManager.state) :
  tag ≠ "" →
  main_install_block rm product tag s = (inr tt, s') →
  ∀ sub_product version,
    (sub_product, version) ∈ RepositoryManager.products_for_tag rm tag →
    registered (local_tracker s') sub_product version →
    tracks (local_tracker s') sub_product version tag ∧
    ∃ tags, ProductTracker.tags_for_product (local_tracker s') sub_product
            = inr tags ∧ tag ∈ tags.
Proof.
  intros Hne. unfold main_install_block.
  intros ([] & s1 & Hinstall & Hdeclare)%bind_inr_inv.
  unfold main_declare in Hdeclare.
  apply bind_inr_inv in Hdeclare as (declared & s2 & Htags & Hdeclare).
  apply bind_inr_inv in Hdeclare as ([] & s3 & Hreg & Hdeclare).
  apply bind_inr_inv in Hdeclare as ([] & s4 & [= <-] & Hfan).
  assert (Hs' : has_versions (local_tracker s')).
  { pose proof (keeps_for_each has_versions
                  (RepositoryManager.products_for_tag rm tag)
                  (λ pv, apply_tag pv.1 pv.2 tag)
                  (λ pv, keeps_apply_tag pv.1 pv.2 tag)) as Hk.
    match type of Hfan with
    | for_each _ _ ?st = _ => specialize (Hk st)
    end.
    rewrite Hfan in Hk. apply Hk.
    change (has_versions (local_tracker s3)).
    assert (Hs3 : local_tracker s3 = local_tracker s2).
    { destruct (bool_decide (tag ∈ declared)).
      - by injection Hreg as <-.
      - apply bind_inr_inv in Hreg as ([] & sr & [= <-] & [= <-]). done. }
    assert (Hs2 : local_tracker s2 = local_tracker s1).
    { unfold tags, _run_cmd in Htags.
      apply bind_inr_inv in Htags as (out & sq & Hq & [= _ <-]).
      rewrite run_check_output in Hq.
      destruct (run_process _ _) as [rc o]. destruct (rc =? 0); [|done].
      by injection Hq as _ <-. }
    rewrite Hs3, Hs2.
    unfold distrib_install in Hinstall.
    apply bind_inr_inv in Hinstall as (out & sa & _ & Hinstall).
    apply bind_inr_inv in Hinstall as ([] & sb & _ & Hrefresh).
    pose proof (refresh_has_versions sb) as Hr. by rewrite Hrefresh in Hr. }
  apply (fan_out_records _ _ _ _ Hne) in Hfan as (_ & _ & Hall).
  intros sub_product version Hin Hr. specialize (Hall _ _ Hin Hr).
  split; [done|].
  destruct (tags_for_product_spec _ sub_product Hs') as (tags & Ht & Hspec).
  exists tags. split; [done|]. apply Hspec.
  destruct Hall as (p & ts & ? & ? & ?). by exists p, version, ts.
Qed.

(** X25. When the election returns, [max] has returned a tag and
    "current" is filed, in the local catalogue, on every (product,
    version) of that release the catalogue contains.  An older version
    that carried "current" keeps it: the catalogue only grows. *)
Theorem election_files_current (rm : RepositoryManager.t) (product : string)
    (server local : gset string) (s s' : StackManager.state) :
  ProductTracker.tags_for_product (local_tracker s) product = inr local →
  server ∩ local ≠ ∅ →
  main_elect_current rm product server s = (inr tt, s') →
  ∃ current_tag,
    main_current_tag rm (server ∩ local) = inr current_tag ∧
    (∀ sub_product version,
        (sub_product, version)
          ∈ RepositoryManager.products_for_tag rm current_tag →
        registered (local_tracker s') sub_product version →
        tracks (local_tracker s') sub_product version "current") ∧
    (∀ p v t, tracks (local_tracker s) p v t → tracks (local_tracker s') p v t).
Proof.
  intros Hlocal Hne. rewrite (run_main_elect_current _ _ _ local) by done.
  rewrite decide_False by done.
  destruct (main_current_tag rm (server ∩ local)) as [e|t]; [done|].
  unfold mark_current. intros ([] & s1 & [= <-] & Hfan)%bind_inr_inv.
  apply fan_out_records in Hfan as (Hmono & _ & Hall); [|done].
  exists t. split; [done|]. split; [done|].
  intros p v t' Ht. by apply Hmono.
Qed.

End loop_end.

(** ** The further properties on concrete runs *)

Lemma refresh_line_keeps_witness :
  ∃ s',
    StackManager.refresh_line ("afw" +:+ "|" +:+ "1.0" +:+ "|" +:+ "setup:w_2020_10")
      fresh_state = (inr tt, s') ∧
    StackManager.history s' = StackManager.history fresh_state ∧
    (∀ p v t, tracks (local_tracker s') p v t ↔
              tracks (local_tracker fresh_state) p v t
              ∨ (p = "afw" ∧ v = "1.0" ∧ t ∈ Py.split ":" "setup:w_2020_10"
                 ∧ Py.contains t "setup" = false)) ∧
    (∀ p v, registered (local_tracker s') p v ↔
            registered (local_tracker fresh_state) p v
            ∨ (p = "afw" ∧ v = "1.0"
               ∧ ("setup:w_2020_10" = ""
                  ∨ ∃ t, t ∈ Py.split ":" "setup:w_2020_10"
                         ∧ Py.contains t "setup" = false))).
Proof.
  apply (refresh_line_keeps "afw" "1.0" "setup:w_2020_10" fresh_state);
    reflexivity.
Defined.

Lemma refresh_failure_empties_witness :
  ∃ s',
    @StackManager._refresh_products failing_env fresh_state
    = (inl (CalledProcessError 1 list_raw_argv), s') ∧
    local_tracker s' = ProductTracker.__init__ ∧
    StackManager.history s'
    = StackManager.history fresh_state
      ++ [Exec list_raw_argv; Print "Failed process output:"; Print ""] ∧
    ∀ product,
      @ProductTracker.tags_for_product trie_order (local_tracker s') product
      = inr ∅.
Proof.
  apply (@refresh_failure_empties trie_order failing_env fresh_state 1 "").
  - reflexivity.
  - lia.
Defined.

Lemma version_from_tag_spec_witness :
  ∃ r,
    @StackManager.version_from_tag trie_order "P" "B" abc_state
    = (inr r, abc_state) ∧
    match r with
    | Some version => tracks (local_tracker abc_state) "P" version "B"
    | None => ∀ version, ¬ tracks (local_tracker abc_state) "P" version "B"
    end.
Proof.
  apply (@version_from_tag_spec trie_order "P" "B" abc_state).
  apply (@refresh_well_filed abc_env).
Defined.



Lemma init_election_total_witness :
  ∃ server,
    @RepositoryManager.tags_for_product trie_order abc_rm "P" = inr server ∧
    (∀ t, t ∈ server → is_Some (RepositoryManager.tag_dates abc_rm !! t)) ∧
    ∀ available, available ⊆ server → available ≠ ∅ →
      ∃ t, @main_current_tag trie_order abc_rm available = inr t ∧ t ∈ available.
Proof.
  apply (@init_election_total trie_order (λ _, true) abc_index abc_rm "P").
  vm_compute. reflexivity.
Defined.

Lemma main_loop_keeps_well_filed_witness :
  well_filed
    (local_tracker (@main_loop trie_order t2_env abc_rm ["P"] fresh_state).2) ∧
  ∀ product, ∃ tags,
    @ProductTracker.tags_for_product trie_order
      (local_tracker (@main_loop trie_order t2_env abc_rm ["P"] fresh_state).2)
      product = inr tags.
Proof.
  apply (@main_loop_keeps_well_filed trie_order t2_env abc_rm ["P"] fresh_state).
  apply well_filed_init.
Defined.

Lemma main_loop_errors_witness : loop_error ValueError.
Proof.
  apply (@main_loop_errors trie_order garbage_env abc_rm ["P"] fresh_state
           ValueError).
  - apply (init_remote_ok (λ _, true) abc_index). vm_compute. reflexivity.
  - apply has_versions_init.
  - vm_compute. reflexivity.
Defined.

Lemma unknown_product_skipped_witness :
  @main_product trie_order abc_env abc_rm "Q" abc_state
  = (inr tt, after abc_state [Print ("Considering " +:+ "Q")]).
Proof.
  apply (@unknown_product_skipped trie_order abc_env abc_rm "Q" ∅ abc_state).
  - vm_compute. reflexivity.
  - vm_compute. reflexivity.
Defined.

Lemma install_block_files_tag_witness :
  tracks (local_tracker fan_ok_result) "X" "1.0" "T" ∧
  ∃ tags,
    @ProductTracker.tags_for_product trie_order (local_tracker fan_ok_result)
      "X" = inr tags ∧ "T" ∈ tags.
Proof.
  apply (@install_block_files_tag trie_order fan_ok_env fan_rm "X" "T"
           fresh_state fan_ok_result).
  - done.
  - vm_compute. reflexivity.
  - apply (bool_decide_unpack _). by vm_compute.
  - apply (@has_version_registered trie_order). by vm_compute.
Defined.

Lemma election_files_current_witness :
  ∃ current_tag,
    @main_current_tag trie_order abc_rm
      ({[ "A"; "B"; "C" ]} ∩ {[ "A"; "B"; "C" ]}) = inr current_tag ∧
    (∀ sub_product version,
        (sub_product, version)
          ∈ @RepositoryManager.products_for_tag trie_order abc_rm current_tag →
        registered (local_tracker abc_elected) sub_product version →
        tracks (local_tracker abc_elected) sub_product version "current") ∧
    (∀ p v t, tracks (local_tracker abc_state) p v t →
              tracks (local_tracker abc_elected) p v t).
Proof.
  apply (@election_files_current trie_order abc_env abc_rm "P"
           {[ "A"; "B"; "C" ]} {[ "A"; "B"; "C" ]} abc_state abc_elected).
  - vm_compute. reflexivity.
  - apply (non_empty_inhabited_L "B"). set_solver.
  - vm_compute. reflexivity.
Defined.

(** ** The environment read from [env -0] *)

Lemma split_once_app sep a b :
  mentions sep a = false →
  Py.split_once sep (a +:+ String sep b) = [a; b].
Proof.
  induction a as [|c a IH]; intros Ha.
  - rewrite append_nil_l. simpl. by rewrite Ascii.eqb_refl.
  - simpl in Ha. apply orb_false_iff in Ha as [Hc Ha].
    rewrite append_cons. simpl. rewrite Hc. by rewrite IH.
Qed.

Lemma mentions_app c a b :
  mentions c (a +:+ b) = mentions c a || mentions c b.
Proof.
  induction a as [|c' a IH]; [done|].
  rewrite append_cons. simpl. by rewrite IH, orb_assoc.
Qed.

Lemma append_assoc a b c : (a +:+ b) +:+ c = a +:+ (b +:+ c).
Proof.
  induction a as [|x a IH]; [done|]. by rewrite !append_cons, IH.
Qed.

Lemma split_env0 (vars : list (string * string)) :
  Forall env_var vars →
  Py.split "000" (env0 vars)
  = map (λ nv, nv.1 +:+ "=" +:+ nv.2) vars ++ [""].
Proof.
  induction vars as [|[name value] vars IH]; intros Hall; [done|].
  apply Forall_cons in Hall as [(Hn1 & Hn0 & Hv0) Hall]. simpl in *.
  change (name +:+ "=" +:+ value +:+ String "000" (env0 vars))
    with (name +:+ (String "=" "" +:+ (value +:+ String "000" (env0 vars)))).
  rewrite <- (append_assoc (String "=" "") value), <- append_assoc.
  rewrite split_app.
  - by rewrite IH.
  - rewrite !mentions_app, Hn0, Hv0. done.
Qed.

(** X16. From the output of [env -0], the environment holds each variable
    with its whole value (a value may hold [=]); a variable printed twice
    has its last value; the empty entry after the last NUL is dropped. *)
Theorem eups_environ_env0 (vars : list (string * string)) :
  Forall env_var vars →
  StackManager.eups_environ (env0 vars)
  = foldl (λ env nv, <[nv.1 := nv.2]> env) ∅ vars.
Proof.
  intros Hall. unfold StackManager.eups_environ.
  rewrite split_env0, foldl_app by done. simpl.
  generalize (∅ : gmap string string).
  induction vars as [|[name value] vars IH]; intros env; [done|].
  apply Forall_cons in Hall as [(Hn1 & _ & _) Hall]. simpl in *.
  change (name +:+ "=" +:+ value) with (name +:+ String "=" value).
  rewrite split_once_app by done. by apply IH.
Qed.

Lemma eups_environ_env0_witness :
  StackManager.eups_environ
    (env0 [("PATH", "/bin"); ("OPTS", "a=b"); ("PATH", "/usr/bin")])
  = foldl (λ env nv, <[nv.1 := nv.2]> env) ∅
          [("PATH", "/bin"); ("OPTS", "a=b"); ("PATH", "/usr/bin")].
Proof.
  apply (eups_environ_env0
           [("PATH", "/bin"); ("OPTS", "a=b"); ("PATH", "/usr/bin")]).
  repeat constructor.
Defined.
